(** * credential-proxy: the HTTPS reverse proxy of https-proxy-server.js

    A shallow embedding of the routing store ([loadConfig], [saveConfig],
    [addIssuer]), the dispatcher ([handleRequest]), the admin API
    ([handleAdminRequest]) and the discovery loop ([discoverIssuer]),
    together with the part of the JavaScript platform these functions
    rest on: strings as sequences of UTF-16 code units, plain objects
    with their own-property order, [JSON.parse], [JSON.stringify] and the
    one file the program reads and writes.

    Some of the platform is left outside the embedding and shows up as
    the result [Beyond] (for a stateful function, [Outside]): JSON
    numbers, which ECMAScript turns into binary64 doubles, property reads
    that reach a built-in prototype, writes to arrays and the inherited
    [__proto__] setter.  Whatever the embedding does answer is what the
    program does. *)

From Stdlib Require Import List NArith Bool String Ascii Lia Arith.
Import ListNotations.
Local Open Scope N_scope.
Set Warnings "-register-all".

(** ** Strings *)

(** A JavaScript string is a finite sequence of 16-bit code units. *)
Definition jsstring := list N.

(** ASCII text of the source, as code units. *)
Definition str (s : string) : jsstring :=
  List.map N_of_ascii (list_ascii_of_string s).

(** [a === b] on strings. *)
Fixpoint eqs (a b : jsstring) : bool :=
  match a, b with
  | [], [] => true
  | x :: a', y :: b' => (x =? y) && eqs a' b'
  | _, _ => false
  end.

(** [s.startsWith(p)] *)
Fixpoint startsWith (s p : jsstring) : bool :=
  match p, s with
  | [], _ => true
  | y :: p', x :: s' => (x =? y) && startsWith s' p'
  | _ :: _, [] => false
  end.

Definition colon : N := 58.

(** [s.split(':')[0]]: the code units before the first colon, all of
    [s] when it has none. *)
Fixpoint split_colon_0 (s : jsstring) : jsstring :=
  match s with
  | [] => []
  | c :: s' => if c =? colon then [] else c :: split_colon_0 s'
  end.

(** [parts.join(sep)] *)
Fixpoint join (sep : jsstring) (parts : list jsstring) : jsstring :=
  match parts with
  | [] => []
  | [p] => p
  | p :: rest => p ++ sep ++ join sep rest
  end.

(** Decimal digits of an integer, as [String(n)] prints a port number. *)
Fixpoint uint_units (d : Decimal.uint) : jsstring :=
  match d with
  | Decimal.Nil => []
  | Decimal.D0 r => 48 :: uint_units r
  | Decimal.D1 r => 49 :: uint_units r
  | Decimal.D2 r => 50 :: uint_units r
  | Decimal.D3 r => 51 :: uint_units r
  | Decimal.D4 r => 52 :: uint_units r
  | Decimal.D5 r => 53 :: uint_units r
  | Decimal.D6 r => 54 :: uint_units r
  | Decimal.D7 r => 55 :: uint_units r
  | Decimal.D8 r => 56 :: uint_units r
  | Decimal.D9 r => 57 :: uint_units r
  end.

Definition decimal (n : N) : jsstring := uint_units (N.to_uint n).

(** ** Values *)

(** The values the program handles: what [JSON.parse] returns (numbers
    apart), [undefined], and the object literals of the source.  The
    properties of an object are listed in own-property order. *)
Inductive value : Type :=
| VUndefined
| VNull
| VBool (b : bool)
| VString (s : jsstring)
| VArray (elems : list value)
| VObject (props : list (jsstring * value)).

(** Completions of a pure platform operation. *)
Inductive error : Type := TypeError | SyntaxError | IOError.

Inductive completion (A : Type) : Type :=
| Normal (a : A)
| Throw (e : error)
| Beyond.
Arguments Normal {A} a.
Arguments Throw {A} e.
Arguments Beyond {A}.

(** [ToBoolean] *)
Definition ToBoolean (v : value) : bool :=
  match v with
  | VUndefined | VNull => false
  | VBool b => b
  | VString s => match s with [] => false | _ => true end
  | VArray _ | VObject _ => true
  end.

(** [a || b] *)
Definition or_else (a b : value) : value := if ToBoolean a then a else b.

(** [ToString], as a template literal and a computed property key use
    it.  An array prints its elements joined by commas, [null] and
    [undefined] elements as the empty string. *)
Fixpoint ToString (v : value) : jsstring :=
  match v with
  | VUndefined => str "undefined"
  | VNull => str "null"
  | VBool true => str "true"
  | VBool false => str "false"
  | VString s => s
  | VArray elems =>
      join (str ",")
        (List.map (fun e => match e with
                            | VUndefined | VNull => []
                            | _ => ToString e
                            end) elems)
  | VObject _ => str "[object Object]"
  end.

(** *** Own properties and their order *)

(** An array index is the canonical decimal form of an integer below
    2^32 - 1; such keys come first among the own properties, in
    ascending order, the other keys follow in creation order. *)
Definition is_digit (c : N) : bool := (48 <=? c) && (c <=? 57).

Fixpoint digits_value (acc : N) (s : jsstring) : option N :=
  match s with
  | [] => Some acc
  | c :: s' => if is_digit c then digits_value (10 * acc + (c - 48)) s' else None
  end.

Definition array_index (k : jsstring) : option N :=
  match k with
  | [] => None
  | c :: rest =>
      if (c =? 48) && negb (match rest with [] => true | _ => false end) then None
      else match digits_value 0 k with
           | Some n => if n <=? 4294967294 then Some n else None
           | None => None
           end
  end.

Fixpoint own (props : list (jsstring * value)) (k : jsstring) : option value :=
  match props with
  | [] => None
  | (k', v) :: rest => if eqs k' k then Some v else own rest k
  end.

Fixpoint overwrite (props : list (jsstring * value)) (k : jsstring) (v : value)
  : list (jsstring * value) :=
  match props with
  | [] => []
  | (k', v') :: rest =>
      if eqs k' k then (k', v) :: rest else (k', v') :: overwrite rest k v
  end.

(** A new index key goes after the index keys that do not exceed it. *)
Fixpoint insert_index (props : list (jsstring * value)) (i : N)
    (k : jsstring) (v : value) : list (jsstring * value) :=
  match props with
  | [] => [(k, v)]
  | (k', v') :: rest =>
      match array_index k' with
      | Some j => if j <=? i then (k', v') :: insert_index rest i k v
                  else (k, v) :: props
      | None => (k, v) :: props
      end
  end.

(** [CreateDataProperty]: an existing key keeps its place and takes the
    new value, a new key is placed by the order above. *)
Definition define (props : list (jsstring * value)) (k : jsstring) (v : value)
  : list (jsstring * value) :=
  match own props k with
  | Some _ => overwrite props k v
  | None =>
      match array_index k with
      | Some i => insert_index props i k v
      | None => props ++ [(k, v)]
      end
  end.

(** *** Reading and writing a property *)

(** The names every plain object inherits from [Object.prototype]. *)
Definition Object_prototype_names : list jsstring :=
  List.map str
    ["constructor"; "__defineGetter__"; "__defineSetter__"; "hasOwnProperty";
     "__lookupGetter__"; "__lookupSetter__"; "isPrototypeOf";
     "propertyIsEnumerable"; "toString"; "valueOf"; "__proto__";
     "toLocaleString"]%string.

Definition inherited (k : jsstring) : bool :=
  existsb (eqs k) Object_prototype_names.

(** [o[k]].  Reading from [null] or [undefined] throws; an object
    answers with its own property, and with [undefined] for a name that
    is neither its own nor inherited.  Reads that reach a built-in
    prototype (an inherited name, or any read from a string, boolean or
    array) are outside the embedding. *)
Definition Get (o : value) (k : jsstring) : completion value :=
  match o with
  | VUndefined | VNull => Throw TypeError
  | VObject props =>
      match own props k with
      | Some v => Normal v
      | None => if inherited k then Beyond else Normal VUndefined
      end
  | VBool _ | VString _ | VArray _ => Beyond
  end.

(** [o[k] = v] in sloppy mode.  Writing to [null] or [undefined] throws,
    writing to a string or a boolean is silently dropped, an object
    creates or overwrites its own property.  [__proto__] that is not an
    own property is the inherited setter; that, and writes to arrays,
    are outside the embedding. *)
Definition Set_ (o : value) (k : jsstring) (v : value) : completion value :=
  match o with
  | VUndefined | VNull => Throw TypeError
  | VBool _ | VString _ => Normal o
  | VArray _ => Beyond
  | VObject props =>
      match own props k with
      | Some _ => Normal (VObject (overwrite props k v))
      | None =>
          if eqs k (str "__proto__") then Beyond
          else Normal (VObject (define props k v))
      end
  end.

(** ** JSON text *)

(** *** [JSON.stringify] *)

Definition hex_digit (d : N) : N := if d <? 10 then 48 + d else 87 + d.

(** [\uXXXX] with lower-case digits. *)
Definition unicode_escape (c : N) : jsstring :=
  [92; 117; hex_digit (c / 4096); hex_digit ((c / 256) mod 16);
   hex_digit ((c / 16) mod 16); hex_digit (c mod 16)].

Definition is_high_surrogate (c : N) : bool := (55296 <=? c) && (c <=? 56319).
Definition is_low_surrogate (c : N) : bool := (56320 <=? c) && (c <=? 57343).

(** How [QuoteJSONString] writes one code unit that is not part of a
    surrogate pair. *)
Definition quote_unit (c : N) : jsstring :=
  if c =? 8 then [92; 98]
  else if c =? 9 then [92; 116]
  else if c =? 10 then [92; 110]
  else if c =? 12 then [92; 102]
  else if c =? 13 then [92; 114]
  else if c =? 34 then [92; 34]
  else if c =? 92 then [92; 92]
  else if (c <? 32) || is_high_surrogate c || is_low_surrogate c
       then unicode_escape c
  else [c].

(** Surrogate pairs are copied, lone surrogates escaped. *)
Fixpoint quote_units (s : jsstring) : jsstring :=
  match s with
  | [] => []
  | c :: rest =>
      if is_high_surrogate c then
        match rest with
        | l :: rest' =>
            if is_low_surrogate l then c :: l :: quote_units rest'
            else quote_unit c ++ quote_units rest
        | [] => quote_unit c
        end
      else quote_unit c ++ quote_units rest
  end.

Definition QuoteJSONString (s : jsstring) : jsstring :=
  34 :: quote_units s ++ [34].

Definition newline : jsstring := [10].

(** The text between the brackets of an array or an object: nothing when
    it is empty, the parts on one line without a gap, one part per line
    at the inner indentation otherwise. *)
Definition wrap (opening closing : N) (gap indent : jsstring)
    (parts : list jsstring) : jsstring :=
  match parts with
  | [] => [opening; closing]
  | _ =>
      match gap with
      | [] => opening :: join (str ",") parts ++ [closing]
      | _ =>
          let inner := indent ++ gap in
          opening :: newline ++ inner
            ++ join (str "," ++ newline ++ inner) parts
            ++ newline ++ indent ++ [closing]
      end
  end.

Definition colon_sep (gap : jsstring) : jsstring :=
  match gap with [] => [colon] | _ => [colon; 32] end.

(** [SerializeJSONProperty]: [None] stands for [undefined]. *)
Fixpoint serialize (gap indent : jsstring) (v : value) : option jsstring :=
  match v with
  | VUndefined => None
  | VNull => Some (str "null")
  | VBool true => Some (str "true")
  | VBool false => Some (str "false")
  | VString s => Some (QuoteJSONString s)
  | VArray elems =>
      Some (wrap 91 93 gap indent
              (List.map (fun e => match serialize gap (indent ++ gap) e with
                                  | Some t => t
                                  | None => str "null"
                                  end) elems))
  | VObject props =>
      Some (wrap 123 125 gap indent
              (List.flat_map
                 (fun kv => match serialize gap (indent ++ gap) (snd kv) with
                            | Some t => [QuoteJSONString (fst kv) ++ colon_sep gap ++ t]
                            | None => []
                            end) props))
  end.

(** [JSON.stringify(v)] and [JSON.stringify(v, null, 2)]. *)
Definition JSON_stringify (v : value) : option jsstring := serialize [] [] v.
Definition JSON_stringify_2 (v : value) : option jsstring :=
  serialize [32; 32] [] v.

(** *** [JSON.parse] *)

(** The parser reads the text one code unit at a time.  Its lexical mode
    says what the unit belongs to, its syntactic state what may come
    next and which arrays and objects are still open. *)
Inductive token : Type :=
| TLBrace | TRBrace | TLBracket | TRBracket | TColon | TComma
| TString (s : jsstring) | TTrue | TFalse | TNull.

(** An open array with its elements so far (last first), or an open
    object with its properties so far and the key awaiting its value. *)
Inductive frame : Type :=
| FArray (done : list value)
| FObject (props : list (jsstring * value)) (key : jsstring).

Inductive syntax : Type :=
| PValue (stk : list frame)
| PArrayStart (stk : list frame)
| PArrayNext (done : list value) (stk : list frame)
| PObjectStart (stk : list frame)
| PKey (props : list (jsstring * value)) (stk : list frame)
| PColon (props : list (jsstring * value)) (key : jsstring) (stk : list frame)
| PObjectNext (props : list (jsstring * value)) (stk : list frame)
| PDone (v : value).

(** A finished value goes to the innermost open array or object. *)
Definition deliver (v : value) (stk : list frame) : syntax :=
  match stk with
  | [] => PDone v
  | FArray done :: stk' => PArrayNext (v :: done) stk'
  | FObject props key :: stk' => PObjectNext (define props key v) stk'
  end.

Definition start_value (t : token) (stk : list frame) : option syntax :=
  match t with
  | TString s => Some (deliver (VString s) stk)
  | TTrue => Some (deliver (VBool true) stk)
  | TFalse => Some (deliver (VBool false) stk)
  | TNull => Some (deliver VNull stk)
  | TLBracket => Some (PArrayStart stk)
  | TLBrace => Some (PObjectStart stk)
  | _ => None
  end.

(** One token; [None] is a syntax error. *)
Definition shift (p : syntax) (t : token) : option syntax :=
  match p, t with
  | PValue stk, _ => start_value t stk
  | PArrayStart stk, TRBracket => Some (deliver (VArray []) stk)
  | PArrayStart stk, _ => start_value t (FArray [] :: stk)
  | PArrayNext done stk, TComma => Some (PValue (FArray done :: stk))
  | PArrayNext done stk, TRBracket => Some (deliver (VArray (rev done)) stk)
  | PObjectStart stk, TRBrace => Some (deliver (VObject []) stk)
  | PObjectStart stk, TString k => Some (PColon [] k stk)
  | PKey props stk, TString k => Some (PColon props k stk)
  | PColon props k stk, TColon => Some (PValue (FObject props k :: stk))
  | PObjectNext props stk, TComma => Some (PKey props stk)
  | PObjectNext props stk, TRBrace => Some (deliver (VObject props) stk)
  | _, _ => None
  end.

Inductive lexical : Type :=
| LTop
| LString (acc : jsstring)
| LEscape (acc : jsstring)
| LHex (acc : jsstring) (seen : nat) (code : N)
| LWord (t : token) (pending : jsstring).

Definition is_whitespace (c : N) : bool :=
  (c =? 9) || (c =? 10) || (c =? 13) || (c =? 32).

Definition hex_value (c : N) : option N :=
  if (48 <=? c) && (c <=? 57) then Some (c - 48)
  else if (97 <=? c) && (c <=? 102) then Some (c - 87)
  else if (65 <=? c) && (c <=? 70) then Some (c - 55)
  else None.

Definition punctuation (c : N) : option token :=
  if c =? 123 then Some TLBrace
  else if c =? 125 then Some TRBrace
  else if c =? 91 then Some TLBracket
  else if c =? 93 then Some TRBracket
  else if c =? 58 then Some TColon
  else if c =? 44 then Some TComma
  else None.

(** The unit an escape letter stands for. *)
Definition escaped (c : N) : option N :=
  if c =? 34 then Some 34
  else if c =? 92 then Some 92
  else if c =? 47 then Some 47
  else if c =? 98 then Some 8
  else if c =? 102 then Some 12
  else if c =? 110 then Some 10
  else if c =? 114 then Some 13
  else if c =? 116 then Some 9
  else None.

(** The parser proper.  A number (a minus sign or a digit where a token
    starts) leaves the embedding. *)
Fixpoint parse_from (m : lexical) (p : syntax) (text : jsstring)
  : completion value :=
  match text with
  | [] =>
      match m, p with
      | LTop, PDone v => Normal v
      | _, _ => Throw SyntaxError
      end
  | c :: text' =>
      match m with
      | LTop =>
          if is_whitespace c then parse_from LTop p text'
          else match punctuation c with
          | Some t =>
              match shift p t with
              | Some p' => parse_from LTop p' text'
              | None => Throw SyntaxError
              end
          | None =>
              if c =? 34 then parse_from (LString []) p text'
              else if c =? 116 then parse_from (LWord TTrue (str "rue")) p text'
              else if c =? 102 then parse_from (LWord TFalse (str "alse")) p text'
              else if c =? 110 then parse_from (LWord TNull (str "ull")) p text'
              else if (c =? 45) || is_digit c then Beyond
              else Throw SyntaxError
          end
      | LString acc =>
          if c =? 34 then
            match shift p (TString (rev acc)) with
            | Some p' => parse_from LTop p' text'
            | None => Throw SyntaxError
            end
          else if c =? 92 then parse_from (LEscape acc) p text'
          else if c <? 32 then Throw SyntaxError
          else parse_from (LString (c :: acc)) p text'
      | LEscape acc =>
          if c =? 117 then parse_from (LHex acc 0 0) p text'
          else match escaped c with
               | Some u => parse_from (LString (u :: acc)) p text'
               | None => Throw SyntaxError
               end
      | LHex acc seen code =>
          match hex_value c with
          | Some d =>
              match seen with
              | 3%nat => parse_from (LString (16 * code + d :: acc)) p text'
              | _ => parse_from (LHex acc (S seen) (16 * code + d)) p text'
              end
          | None => Throw SyntaxError
          end
      | LWord t pending =>
          match pending with
          | [] => Throw SyntaxError
          | x :: pending' =>
              if c =? x then
                match pending' with
                | [] =>
                    match shift p t with
                    | Some p' => parse_from LTop p' text'
                    | None => Throw SyntaxError
                    end
                | _ => parse_from (LWord t pending') p text'
                end
              else Throw SyntaxError
          end
      end
  end.

Definition JSON_parse (text : jsstring) : completion value :=
  parse_from LTop (PValue []) text.

(** ** The process and its file *)

(** What the functions below act on: the contents of the file at
    [CONFIG_PATH] ([None] when there is no such file), whether the file
    system lets the process write it, and the object the constant
    [DEFAULT_ISSUERS] is bound to, as it stands now. *)
Record world : Type := {
  storage : option jsstring;
  writable : bool;
  defaults : value
}.

Inductive outcome (A : Type) : Type :=
| Returns (a : A) (w : world)
| Throws (e : error) (w : world)
| Outside.
Arguments Returns {A} a w.
Arguments Throws {A} e w.
Arguments Outside {A}.

(** [fs.writeFileSync(CONFIG_PATH, data)] *)
Definition writeFileSync (data : jsstring) (w : world) : completion world :=
  if writable w
  then Normal {| storage := Some data; writable := writable w;
                 defaults := defaults w |}
  else Throw IOError.


(** The table as written in the source. *)
Definition route (target name : value) : value :=
  VObject [(str "target", target); (str "name", name)].

Definition DEFAULT_ISSUERS : value :=
  VObject
    [ (str "fido.moi.gov.tw",
       route (VString (str "https://localhost:5000"))
             (VString [0x5167; 0x653F; 0x90E8; 0x81EA; 0x7136; 0x4EBA; 0x6191; 0x8B49]));
      (str "land.moi.gov.tw",
       route (VString (str "https://localhost:5001"))
             (VString [0x5167; 0x653F; 0x90E8; 0x623F; 0x7522; 0x6191; 0x8B49]));
      (str "zuvi.io",
       route (VString (str "https://localhost:5002"))
             (VString [0x79DF; 0x623F; 32; 68; 97; 112; 112])) ].

(** The process as it starts, over whatever the file system holds. *)
Definition boot (file : option jsstring) (can_write : bool) : world :=
  {| storage := file; writable := can_write; defaults := DEFAULT_ISSUERS |}.

(** ** The routing store *)

(** What [loadConfig] hands out: a fresh object parsed from the file, or
    the one object [DEFAULT_ISSUERS]. *)
Inductive config : Type :=
| Parsed (v : value)
| TheDefaults.

Definition contents (w : world) (c : config) : value :=
  match c with
  | Parsed v => v
  | TheDefaults => defaults w
  end.

(** The second [try] of [loadConfig]: write the defaults, ignore a
    failure. *)
Definition try_write_defaults (w : world) : world :=
  match JSON_stringify_2 (defaults w) with
  | Some data =>
      match writeFileSync data w with
      | Normal w' => w'
      | _ => w
      end
  | None => w
  end.

Definition loadConfig (w : world) : outcome config :=
  match storage w with
  | Some text =>
      match JSON_parse text with
      | Normal v => Returns (Parsed v) w
      | Throw _ => Returns TheDefaults (try_write_defaults w)
      | Beyond => Outside
      end
  | None => Returns TheDefaults (try_write_defaults w)
  end.

Definition saveConfig (c : config) (w : world) : bool * world :=
  match JSON_stringify_2 (contents w c) with
  | Some data =>
      match writeFileSync data w with
      | Normal w' => (true, w')
      | _ => (false, w)
      end
  | None => (false, w)
  end.


(** [config[key] = v]: through [TheDefaults] the shared object changes. *)
Definition assign (c : config) (key : jsstring) (v : value) (w : world)
  : outcome config :=
  match Set_ (contents w c) key v with
  | Normal o =>
      match c with
      | Parsed _ => Returns (Parsed o) w
      | TheDefaults =>
          Returns TheDefaults
            {| storage := storage w; writable := writable w; defaults := o |}
      end
  | Throw e => Throws e w
  | Beyond => Outside
  end.

Definition addIssuer (hostname target name : value) (w : world) : outcome bool :=
  match loadConfig w with
  | Returns c w1 =>
      match assign c (ToString hostname) (route target name) w1 with
      | Returns c' w2 =>
          let (ok, w3) := saveConfig c' w2 in Returns ok w3
      | Throws e w2 => Throws e w2
      | Outside => Outside
      end
  | Throws e w1 => Throws e w1
  | Outside => Outside
  end.

(** ** Requests and replies *)

(** An incoming request: [req.headers.host] (absent when the client sent
    no Host header), [req.url], [req.method], and the text its [data]
    events deliver. *)
Record request : Type := {
  headers_host : option jsstring;
  url : jsstring;
  method : jsstring;
  body : jsstring
}.

Inductive payload : Type :=
| Text (t : jsstring)
| AdminConsole.   (* the static page of GET /proxy-admin *)

(** What becomes of a request: a response written by the proxy itself,
    or [proxy.web(req, res, { target })]. *)
Inductive reply : Type :=
| Respond (status : N) (content_type : jsstring) (content : payload)
| ProxyWeb (req : request) (target : value).

(** The reply, and the ports probed on the way, in order. *)
Record handled : Type := {
  answer : reply;
  probed : list N
}.

Definition application_json : jsstring := str "application/json".

Definition json_body (v : value) : payload :=
  match JSON_stringify v with
  | Some t => Text t
  | None => Text []
  end.

Definition admin_url : value := VString (str "https://localhost:8080/proxy-admin").

Definition well_known : jsstring := str "/.well-known/openid-credential-issuer".

(** ** The admin API *)

Definition missing_parameters : value :=
  VObject [(str "error", VString [0x7F3A; 0x5C11; 0x5FC5; 0x8981; 0x53C3; 0x6578])].
Definition issuer_added : value :=
  VObject [(str "success", VBool true);
           (str "message", VString [0x767C; 0x884C; 0x8005; 0x5DF2; 0x6DFB; 0x52A0])].
Definition save_failed : value :=
  VObject [(str "error", VString [0x4FDD; 0x5B58; 0x914D; 0x7F6E; 0x5931; 0x6557])].
Definition bad_request_format : value :=
  VObject [(str "error", VString [0x8ACB; 0x6C42; 0x683C; 0x5F0F; 0x932F; 0x8AA4])].
Definition no_such_endpoint : value :=
  VObject [(str "error",
            VString [0x672A; 0x627E; 0x5230; 0x8ACB; 0x6C42; 0x7684; 0x7BA1;
                     0x7406; 0x7AEF; 0x9EDE])].

(** [const { hostname, target, name } = JSON.parse(body)] *)
Definition parse_add_body (text : jsstring) : completion (value * value * value) :=
  match JSON_parse text with
  | Normal o =>
      match Get o (str "hostname"), Get o (str "target"), Get o (str "name") with
      | Normal h, Normal t, Normal n => Normal (h, t, n)
      | Throw e, _, _ => Throw e
      | Beyond, _, _ => Beyond
      | _, Throw e, _ => Throw e
      | _, Beyond, _ => Beyond
      | _, _, Throw e => Throw e
      | _, _, Beyond => Beyond
      end
  | Throw e => Throw e
  | Beyond => Beyond
  end.

(** The handler of POST /proxy-admin/add, run when the body has arrived.
    Its [catch] covers the parse and [addIssuer] alike. *)
Definition admin_add (req : request) (w : world) : outcome reply :=
  match parse_add_body (body req) with
  | Normal (hostname, target, name) =>
      if negb (ToBoolean hostname) || negb (ToBoolean target) then
        Returns (Respond 400 application_json (json_body missing_parameters)) w
      else
        match addIssuer hostname target (or_else name hostname) w with
        | Returns true w' =>
            Returns (Respond 200 application_json (json_body issuer_added)) w'
        | Returns false w' =>
            Returns (Respond 500 application_json (json_body save_failed)) w'
        | Throws _ w' =>
            Returns (Respond 400 application_json (json_body bad_request_format)) w'
        | Outside => Outside
        end
  | Throw _ =>
      Returns (Respond 400 application_json (json_body bad_request_format)) w
  | Beyond => Outside
  end.

Definition handleAdminRequest (req : request) (w : world) : outcome reply :=
  if eqs (url req) (str "/proxy-admin/list") && eqs (method req) (str "GET") then
    match loadConfig w with
    | Returns c w' =>
        Returns (Respond 200 application_json (json_body (contents w' c))) w'
    | Throws e w' => Throws e w'
    | Outside => Outside
    end
  else if eqs (url req) (str "/proxy-admin/add") && eqs (method req) (str "POST") then
    admin_add req w
  else if eqs (url req) (str "/proxy-admin") && eqs (method req) (str "GET") then
    Returns (Respond 200 (str "text/html") AdminConsole) w
  else
    Returns (Respond 404 application_json (json_body no_such_endpoint)) w.

(** ** Discovery *)

(** How a probe of one port ends. *)
Inductive probe_result : Type :=
| Status (code : N)
| ConnectionError
| TimedOut.

(** [testRes.statusCode === 200]; an error and a timeout resolve the
    probe to [false] as any other status does. *)
Definition is_200 (r : probe_result) : bool :=
  match r with
  | Status code => code =? 200
  | ConnectionError | TimedOut => false
  end.

Definition ports : list N :=
  [5000; 5001; 5002; 5003; 5004; 5005; 8080; 8081; 8082; 8000; 8001].

Definition localhost_at (port : N) : jsstring :=
  str "https://localhost:" ++ decimal port.

Definition discovered_label (hostname : jsstring) : jsstring :=
  [0x81EA; 0x52D5; 0x767C; 0x73FE; 0x7684; 0x767C; 0x884C; 0x8005; 32; 40]
    ++ hostname ++ [41].

Definition issuer_not_found (hostname : jsstring) : value :=
  VObject
    [(str "error", VString [0x672A; 0x627E; 0x5230; 0x767C; 0x884C; 0x8005]);
     (str "message",
      VString ([0x7121; 0x6CD5; 0x81EA; 0x52D5; 0x767C; 0x73FE; 32] ++ hostname ++
               [32; 0x7684; 0x670D; 0x52D9; 0x3002; 0x8ACB; 0x78BA; 0x4FDD; 0x670D;
                0x52D9; 0x904B; 0x884C; 0x4E26; 0x5728; 0x4EE3; 0x7406; 0x7BA1;
                0x7406; 0x9801; 0x9762; 0x6DFB; 0x52A0; 0x6B64; 0x767C; 0x884C;
                0x8005; 0x3002]));
     (str "admin_url", admin_url)].

(** The [for] loop of [discoverIssuer] over the ports still to try;
    [tried] lists the ports already probed, last first.  The result of
    [addIssuer] is not looked at. *)
Fixpoint discover_loop (probe : N -> probe_result) (candidates : list N)
    (tried : list N) (hostname : jsstring) (req : request) (w : world)
  : outcome handled :=
  match candidates with
  | [] =>
      Returns {| answer := Respond 404 application_json
                             (json_body (issuer_not_found hostname));
                 probed := rev tried |} w
  | port :: later =>
      if is_200 (probe port) then
        let target := VString (localhost_at port) in
        match addIssuer (VString hostname) target
                (VString (discovered_label hostname)) w with
        | Returns _ w' =>
            Returns {| answer := ProxyWeb req target;
                       probed := rev (port :: tried) |} w'
        | Throws e w' => Throws e w'
        | Outside => Outside
        end
      else discover_loop probe later (port :: tried) hostname req w
  end.

Definition discoverIssuer (probe : N -> probe_result) (hostname : jsstring)
    (req : request) (w : world) : outcome handled :=
  discover_loop probe ports [] hostname req w.

(** ** The dispatcher *)

Definition issuer_not_configured (hostname : jsstring) : value :=
  VObject
    [(str "error", VString [0x672A; 0x914D; 0x7F6E; 0x7684; 0x767C; 0x884C; 0x8005]);
     (str "message",
      VString ([0x627E; 0x4E0D; 0x5230; 32] ++ hostname ++
               [32; 0x7684; 0x914D; 0x7F6E; 0xFF0C; 0x8ACB; 0x5728; 0x4EE3; 0x7406;
                0x7BA1; 0x7406; 0x9801; 0x9762; 0x6DFB; 0x52A0; 0x6B64; 0x767C;
                0x884C; 0x8005; 0x3002]));
     (str "admin_url", admin_url)].

(** [req.headers.host.split(':')[0]]: without a Host header the read of
    [split] from [undefined] throws. *)
Definition request_hostname (req : request) : completion jsstring :=
  match headers_host req with
  | Some host => Normal (split_colon_0 host)
  | None => Throw TypeError
  end.

Definition unprobed (r : reply) : handled := {| answer := r; probed := [] |}.

(** The routing part of [handleRequest], after the admin gate. *)
Definition route_request (probe : N -> probe_result) (hostname : jsstring)
    (c : config) (req : request) (w : world) : outcome handled :=
  match Get (contents w c) hostname with
  | Normal entry =>
      if ToBoolean entry then
        match Get entry (str "target") with
        | Normal target => Returns (unprobed (ProxyWeb req target)) w
        | Throw e => Throws e w
        | Beyond => Outside
        end
      else if eqs (url req) well_known then
        discoverIssuer probe hostname req w
      else
        Returns (unprobed (Respond 404 application_json
                             (json_body (issuer_not_configured hostname)))) w
  | Throw e => Throws e w
  | Beyond => Outside
  end.

Definition handleRequest (probe : N -> probe_result) (req : request) (w : world)
  : outcome handled :=
  match request_hostname req with
  | Normal hostname =>
      match loadConfig w with
      | Returns c w1 =>
          if eqs hostname (str "localhost")
             && startsWith (url req) (str "/proxy-admin")
          then
            match handleAdminRequest req w1 with
            | Returns r w2 => Returns (unprobed r) w2
            | Throws e w2 => Throws e w2
            | Outside => Outside
            end
          else route_request probe hostname c req w1
      | Throws e w1 => Throws e w1
      | Outside => Outside
      end
  | Throw e => Throws e w
  | Beyond => Outside
  end.

(** ** The HTTP server *)

(** What the plain-HTTP server sends back: [res.writeHead(301, { Location })]. *)
Record redirect : Type := {
  redirect_status : N;
  Location : jsstring
}.

(** [req.headers.host?.split(':')[0] || 'localhost'] *)
Definition redirect_host (req : request) : jsstring :=
  match headers_host req with
  | Some host =>
      match split_colon_0 host with
      | [] => str "localhost"
      | h => h
      end
  | None => str "localhost"
  end.

(** The request listener of [httpServer]. *)
Definition httpServer (req : request) : redirect :=
  {| redirect_status := 301;
     Location := str "https://" ++ redirect_host req ++ url req |}.

(** ** Well-formed values *)

Definition keys (props : list (jsstring * value)) : list jsstring :=
  List.map fst props.

(** Keys as an object lists them: no key twice, the array indices first
    and ascending. *)
Definition index_below (k k' : jsstring) : bool :=
  match array_index k, array_index k' with
  | Some i, Some j => i <=? j
  | Some _, None => true
  | None, Some _ => false
  | None, None => true
  end.

Fixpoint ordered (keys : list jsstring) : bool :=
  match keys with
  | [] => true
  | k :: rest =>
      negb (existsb (eqs k) rest) && forallb (index_below k) rest && ordered rest
  end.

(** A value [JSON.parse] can return: no [undefined] in it, and every
    object in it with its keys in own-property order. *)
Fixpoint json (v : value) : bool :=
  match v with
  | VUndefined => false
  | VNull | VBool _ | VString _ => true
  | VArray elems => forallb json elems
  | VObject props =>
      ordered (List.map fst props) && forallb (fun kv => json (snd kv)) props
  end.

(** The process keeps [DEFAULT_ISSUERS] bound to an object of that kind. *)
Definition sound (w : world) : bool :=
  match defaults w with
  | VObject _ => json (defaults w)
  | _ => false
  end.

(** ** Notions for the parser's correctness *)

Definition blank (s : jsstring) : bool := forallb is_whitespace s.

(** Where a value may start, and the open arrays and objects it will be
    delivered to. *)
Definition value_stack (p : syntax) : option (list frame) :=
  match p with
  | PValue stk => Some stk
  | PArrayStart stk => Some (FArray [] :: stk)
  | _ => None
  end.

(** The text [t] is read as the value [v] wherever a value may start. *)
Definition realises (t : jsstring) (v : value) : Prop :=
  forall p stk rest,
    value_stack p = Some stk ->
    parse_from LTop p (t ++ rest) = parse_from LTop (deliver v stk) rest.

(** The part of an object's text that gives the property [kv]. *)
Definition member_realises (gap part : jsstring) (kv : jsstring * value) : Prop :=
  exists t, part = QuoteJSONString (fst kv) ++ colon_sep gap ++ t
            /\ realises t (snd kv).

(** How the parser goes on once a string literal is closed. *)
Definition after_string (p : syntax) (s rest : jsstring) : completion value :=
  match shift p (TString s) with
  | Some p' => parse_from LTop p' rest
  | None => Throw SyntaxError
  end.

(** All values held by the parser are well formed. *)
Definition json_frame (f : frame) : bool :=
  match f with
  | FArray done => forallb json done
  | FObject props _ => json (VObject props)
  end.

Definition json_syntax (p : syntax) : bool :=
  match p with
  | PValue stk | PArrayStart stk | PObjectStart stk => forallb json_frame stk
  | PArrayNext done stk => forallb json done && forallb json_frame stk
  | PKey props stk | PColon props _ stk | PObjectNext props stk =>
      json (VObject props) && forallb json_frame stk
  | PDone v => json v
  end.

(** ** Notions for the statements *)

(** The object [o] has an own property named [k]. *)
Definition holds (o : value) (k : jsstring) : bool :=
  match o with
  | VObject props => match own props k with Some _ => true | None => false end
  | _ => false
  end.

(** The world and the reference after [config[key] = v]. *)
Definition assigned (c : config) (o : value) (w : world) : config * world :=
  match c with
  | Parsed _ => (Parsed o, w)
  | TheDefaults =>
      (TheDefaults,
       {| storage := storage w; writable := writable w; defaults := o |})
  end.

(** A table of hostname, target and name, all strings. *)
Definition routing_table (entries : list (jsstring * (jsstring * jsstring))) : value :=
  VObject (List.map (fun e => (fst e, route (VString (fst (snd e)))
                                        (VString (snd (snd e))))) entries).

(** The table a request would find: what [loadConfig] returns now. *)
Definition table (w : world) : option value :=
  match loadConfig w with
  | Returns c w' => Some (contents w' c)
  | _ => None
  end.








(** ** Sample requests and worlds *)

Definition json_text (v : value) : jsstring :=
  match JSON_stringify v with
  | Some t => t
  | None => []
  end.

Definition get (host : string) (path : string) : request :=
  {| headers_host := Some (str host); url := str path; method := str "GET";
     body := [] |}.

Definition no_host : request :=
  {| headers_host := None; url := str "/"; method := str "GET"; body := [] |}.

Definition post_add (text : jsstring) : request :=
  {| headers_host := Some (str "localhost"); url := str "/proxy-admin/add";
     method := str "POST"; body := text |}.




(** Only port 5001 answers 200. *)
Definition only_5001 (port : N) : probe_result :=
  if port =? 5001 then Status 200 else ConnectionError.

Definition well_known_request : request :=
  get "unknown.example" "/.well-known/openid-credential-issuer".


(** ** Notions for further properties *)

(** The admin gate of [handleRequest]. *)
Definition gated (hostname : jsstring) (req : request) : bool :=
  eqs hostname (str "localhost") && startsWith (url req) (str "/proxy-admin").



(** A table file that holds [null]. *)
Definition null_world : world :=
  {| storage := Some (str "null"); writable := true; defaults := DEFAULT_ISSUERS |}.

(** A body that adds [example.org]. *)
Definition add_example : jsstring :=
  json_text (VObject [(str "hostname", VString (str "example.org"));
                      (str "target", VString (str "https://localhost:6001"))]).

(** The key can be set on an object with these properties: it is one of
    them, or it is not the inherited [__proto__]. *)
Definition settable (props : list (jsstring * value)) (key : jsstring) : Prop :=
  own props key <> None \/ eqs key (str "__proto__") = false.



(** ** Reachable states *)

(** The process starts over any file system; afterwards the file system
    may change under it, and every request, however its asynchronous
    steps interleave with those of others, acts on the store through
    calls of [loadConfig] and [addIssuer] with values taken from parsed
    JSON. *)
Inductive reachable : world -> Prop :=
| reach_boot (file : option jsstring) (can_write : bool) :
    reachable (boot file can_write)
| reach_environment (w : world) (file : option jsstring) (can_write : bool) :
    reachable w ->
    reachable {| storage := file; writable := can_write; defaults := defaults w |}
| reach_loadConfig (w w' : world) (c : config) :
    reachable w -> loadConfig w = Returns c w' -> reachable w'
| reach_addIssuer (w w' : world) (h t n : value) (ok : bool) :
    reachable w -> json h = true -> json t = true -> json n = true ->
    addIssuer h t n w = Returns ok w' -> reachable w'.

(** * Facts about strings *)

Lemma eqs_eq (a b : jsstring) : eqs a b = true <-> a = b.
Proof.
  revert b; induction a as [|x a IH]; intros [|y b]; simpl; split;
    try congruence; try reflexivity.
  - intros H. apply andb_true_iff in H as [Hx Hr].
    apply N.eqb_eq in Hx. apply IH in Hr. congruence.
  - intros H. injection H as -> ->.
    rewrite N.eqb_refl. simpl. apply IH. reflexivity.
Qed.

Lemma eqs_refl (a : jsstring) : eqs a a = true.
Proof. apply eqs_eq. reflexivity. Qed.

Lemma eqs_neq (a b : jsstring) : eqs a b = false <-> a <> b.
Proof.
  split.
  - intros H E. apply eqs_eq in E. congruence.
  - intros H. destruct (eqs a b) eqn:E; [apply eqs_eq in E; contradiction | reflexivity].
Qed.

Lemma eqs_sym (a b : jsstring) : eqs a b = eqs b a.
Proof.
  destruct (eqs a b) eqn:E.
  - apply eqs_eq in E. subst. symmetry. apply eqs_refl.
  - symmetry. apply eqs_neq. apply eqs_neq in E. congruence.
Qed.

Lemma split_colon_0_no_colon (s : jsstring) : ~ In colon (split_colon_0 s).
Proof.
  induction s as [|c s IH]; simpl; [tauto|].
  destruct (c =? colon) eqn:E; simpl; [tauto|].
  apply N.eqb_neq in E. intros [H|H]; [congruence | tauto].
Qed.




(** * Facts about own properties *)

Lemma own_overwrite_same props k v :
  own props k <> None -> own (overwrite props k v) k = Some v.
Proof.
  induction props as [|[k' v'] rest IH]; simpl; [congruence|].
  destruct (eqs k' k) eqn:E; simpl; rewrite E; auto.
Qed.

Lemma own_overwrite_other props k v k' :
  k' <> k -> own (overwrite props k v) k' = own props k'.
Proof.
  intros Hne. induction props as [|[k0 v0] rest IH]; simpl; [reflexivity|].
  destruct (eqs k0 k) eqn:E; simpl.
  - apply eqs_eq in E. subst k0.
    destruct (eqs k k') eqn:E'; [apply eqs_eq in E'; congruence | reflexivity].
  - destruct (eqs k0 k'); [reflexivity | exact IH].
Qed.

Lemma own_insert_index_same props i k v :
  own props k = None -> own (insert_index props i k v) k = Some v.
Proof.
  induction props as [|[k' v'] rest IH]; simpl; intros H.
  - rewrite eqs_refl. reflexivity.
  - destruct (eqs k' k) eqn:E; [discriminate|].
    destruct (array_index k') as [j|]; [destruct (j <=? i)|]; simpl;
      rewrite ?E, ?eqs_refl; auto.
Qed.

Lemma own_insert_index_other props i k v k' :
  k' <> k -> own (insert_index props i k v) k' = own props k'.
Proof.
  intros Hne.
  assert (Hk : eqs k k' = false) by (apply eqs_neq; congruence).
  induction props as [|[k0 v0] rest IH]; simpl.
  - rewrite Hk. reflexivity.
  - destruct (array_index k0) as [j|]; [destruct (j <=? i)|]; simpl;
      rewrite ?Hk, ?IH; reflexivity.
Qed.

Lemma own_app props more k :
  own (props ++ more) k =
  match own props k with Some v => Some v | None => own more k end.
Proof.
  induction props as [|[k' v'] rest IH]; simpl; [reflexivity|].
  destruct (eqs k' k); [reflexivity | exact IH].
Qed.

Lemma own_define_same props k v : own (define props k v) k = Some v.
Proof.
  unfold define. destruct (own props k) eqn:E.
  - apply own_overwrite_same. congruence.
  - destruct (array_index k).
    + apply own_insert_index_same. exact E.
    + rewrite own_app, E. simpl. rewrite eqs_refl. reflexivity.
Qed.

Lemma own_define_other props k v k' :
  k' <> k -> own (define props k v) k' = own props k'.
Proof.
  intros Hne. unfold define. destruct (own props k) eqn:E.
  - apply own_overwrite_other. exact Hne.
  - destruct (array_index k).
    + apply own_insert_index_other. exact Hne.
    + rewrite own_app. destruct (own props k'); [reflexivity|].
      simpl. destruct (eqs k k') eqn:E'; [apply eqs_eq in E'; congruence | reflexivity].
Qed.





(** * Facts about the order of keys *)

Lemma absent_spec (k : jsstring) (ks : list jsstring) :
  existsb (eqs k) ks = false <-> ~ In k ks.
Proof.
  induction ks as [|x ks IH]; simpl; [tauto|].
  rewrite orb_false_iff, IH, eqs_neq. intuition congruence.
Qed.

Lemma own_none_spec props k : own props k = None <-> ~ In k (keys props).
Proof.
  induction props as [|[k' v'] rest IH]; simpl; [tauto|].
  destruct (eqs k' k) eqn:E.
  - apply eqs_eq in E. split; [discriminate | tauto].
  - apply eqs_neq in E. rewrite IH. tauto.
Qed.

Lemma ordered_cons k ks :
  ordered (k :: ks) = true <->
  ~ In k ks /\ (forall x, In x ks -> index_below k x = true) /\ ordered ks = true.
Proof.
  simpl. rewrite !andb_true_iff, negb_true_iff, absent_spec, forallb_forall.
  tauto.
Qed.

Lemma index_below_trans a b c :
  index_below a b = true -> index_below b c = true -> index_below a c = true.
Proof.
  unfold index_below.
  destruct (array_index a), (array_index b), (array_index c);
    try congruence; rewrite ?N.leb_le; lia.
Qed.

Lemma ordered_snoc ks k :
  ordered (ks ++ [k]) = true <->
  ordered ks = true /\ ~ In k ks /\ (forall x, In x ks -> index_below x k = true).
Proof.
  induction ks as [|x ks IH].
  - simpl. intuition.
  - change ((x :: ks) ++ [k]) with (x :: (ks ++ [k])).
    rewrite !ordered_cons, IH. split.
    + intros (Hx & Hb & Ho & Hk & Hl). repeat split.
      * intros H. apply Hx. apply in_or_app. tauto.
      * intros y Hy. apply Hb. apply in_or_app. tauto.
      * exact Ho.
      * simpl. intros [E|H]; [| tauto]. subst.
        apply Hx. apply in_or_app. simpl. tauto.
      * simpl. intros y [E|H]; [subst | auto].
        apply Hb. apply in_or_app. simpl. tauto.
    + intros ((Hx & Hb & Ho) & Hk & Hl). repeat split.
      * intros H. apply in_app_or in H as [H|[H|[]]]; [tauto|].
        subst. apply Hk. simpl. tauto.
      * intros y Hy. apply in_app_or in Hy as [H|[H|[]]]; [auto|].
        subst. apply Hl. simpl. tauto.
      * exact Ho.
      * intros H. apply Hk. simpl. tauto.
      * intros y Hy. apply Hl. simpl. tauto.
Qed.

Lemma ordered_prefix ks more : ordered (ks ++ more) = true -> ordered ks = true.
Proof.
  induction ks as [|x ks IH]; [reflexivity|].
  change ((x :: ks) ++ more) with (x :: (ks ++ more)).
  rewrite !ordered_cons. intros (Hx & Hb & Ho). repeat split.
  - intros H. apply Hx. apply in_or_app. tauto.
  - intros y Hy. apply Hb. apply in_or_app. tauto.
  - apply IH. exact Ho.
Qed.

Lemma keys_overwrite props k v : keys (overwrite props k v) = keys props.
Proof.
  induction props as [|[k' v'] rest IH]; simpl; [reflexivity|].
  destruct (eqs k' k); simpl; congruence.
Qed.

Lemma keys_app props more : keys (props ++ more) = keys props ++ keys more.
Proof. apply map_app. Qed.

Lemma in_keys_insert_index props i k v x :
  In x (keys (insert_index props i k v)) <-> x = k \/ In x (keys props).
Proof.
  induction props as [|[k' v'] rest IH]; simpl.
  - intuition.
  - destruct (array_index k') as [j|]; [destruct (j <=? i)|]; simpl;
      rewrite ?IH; intuition.
Qed.

Lemma ordered_insert_index props i k v :
  ordered (keys props) = true -> own props k = None ->
  array_index k = Some i ->
  ordered (keys (insert_index props i k v)) = true.
Proof.
  intros Ho Hk Hi. induction props as [|[k' v'] rest IH]; [reflexivity|].
  simpl in Ho, Hk. change (keys ((k', v') :: rest)) with (k' :: keys rest) in Ho.
  apply ordered_cons in Ho as (Hx & Hb & Ho).
  destruct (eqs k' k) eqn:E; [discriminate|]. apply eqs_neq in E.
  assert (Hfresh : ~ In k (k' :: keys rest)).
  { simpl. apply own_none_spec in Hk. intuition congruence. }
  assert (Hhead : forall y, In y (keys rest) -> index_below k k' = true ->
                            index_below k y = true).
  { intros y Hy Hkk. eapply index_below_trans; eauto. }
  simpl. destruct (array_index k') as [j|] eqn:Ej; [destruct (j <=? i) eqn:Ele|].
  - change (ordered (k' :: keys (insert_index rest i k v)) = true).
    apply ordered_cons. repeat split.
    + rewrite in_keys_insert_index. intuition congruence.
    + intros y Hy. apply in_keys_insert_index in Hy as [Hy|Hy]; [|auto].
      subst y. unfold index_below. rewrite Ej, Hi. exact Ele.
    + auto.
  - change (ordered (k :: k' :: keys rest) = true).
    assert (Hkk : index_below k k' = true).
    { unfold index_below. rewrite Ej, Hi. apply N.leb_le.
      apply N.leb_gt in Ele. lia. }
    apply ordered_cons. repeat split; [exact Hfresh | | ].
    + simpl. intros y [<-|Hy]; auto.
    + apply ordered_cons. auto.
  - change (ordered (k :: k' :: keys rest) = true).
    assert (Hkk : index_below k k' = true).
    { unfold index_below. rewrite Ej, Hi. reflexivity. }
    apply ordered_cons. repeat split; [exact Hfresh | | ].
    + simpl. intros y [<-|Hy]; auto.
    + apply ordered_cons. auto.
Qed.

Lemma ordered_define props k v :
  ordered (keys props) = true -> ordered (keys (define props k v)) = true.
Proof.
  intros Ho. unfold define. destruct (own props k) eqn:Hk.
  - rewrite keys_overwrite. exact Ho.
  - destruct (array_index k) as [i|] eqn:Hi.
    + apply ordered_insert_index; assumption.
    + rewrite keys_app. change (keys [(k, v)]) with [k].
      apply ordered_snoc. repeat split.
      * exact Ho.
      * apply own_none_spec. exact Hk.
      * intros x _. unfold index_below. rewrite Hi.
        destruct (array_index x); reflexivity.
Qed.

Lemma insert_index_last props i k v :
  array_index k = Some i ->
  (forall x, In x (keys props) -> index_below x k = true) ->
  insert_index props i k v = props ++ [(k, v)].
Proof.
  intros Hi. induction props as [|[k' v'] rest IH]; simpl; intros Hb.
  - reflexivity.
  - assert (H := Hb k' (or_introl eq_refl)).
    unfold index_below in H. rewrite Hi in H.
    destruct (array_index k') as [j|]; [|discriminate].
    rewrite H, IH; auto.
Qed.

(** Created after the others, a key that belongs last is placed last. *)
Lemma define_last props k v :
  ordered (keys props ++ [k]) = true -> define props k v = props ++ [(k, v)].
Proof.
  intros H. apply ordered_snoc in H as (_ & Hk & Hb).
  unfold define. apply own_none_spec in Hk. rewrite Hk.
  destruct (array_index k) as [i|] eqn:Hi; [|reflexivity].
  apply insert_index_last; assumption.
Qed.

(** * Facts about values *)

(** Induction over values, through the elements of arrays and the
    properties of objects. *)
Lemma value_induction (P : value -> Prop) :
  P VUndefined -> P VNull -> (forall b, P (VBool b)) -> (forall s, P (VString s)) ->
  (forall elems, Forall P elems -> P (VArray elems)) ->
  (forall props, Forall (fun kv => P (snd kv)) props -> P (VObject props)) ->
  forall v, P v.
Proof.
  intros Hu Hn Hb Hs Ha Ho.
  fix self 1. intros [| | b | s | elems | props].
  - exact Hu.
  - exact Hn.
  - apply Hb.
  - apply Hs.
  - apply Ha. induction elems as [|e elems IH]; constructor; [apply self | exact IH].
  - apply Ho. induction props as [|[k e] props IH]; constructor;
      [apply self | exact IH].
Qed.

Lemma in_define props k v kv :
  In kv (define props k v) -> kv = (k, v) \/ In kv props.
Proof.
  unfold define. destruct (own props k) as [old|].
  - induction props as [|[k' v'] rest IH]; simpl; [tauto|].
    destruct (eqs k' k) eqn:E; simpl.
    + apply eqs_eq in E. subst k'. intuition.
    + intuition.
  - destruct (array_index k) as [i|].
    + induction props as [|[k' v'] rest IH]; simpl; [intuition|].
      destruct (array_index k') as [j|]; [destruct (j <=? i)|]; simpl; intuition.
    + intros H. apply in_app_or in H. simpl in H. intuition.
Qed.

Lemma json_define props k v :
  json (VObject props) = true -> json v = true ->
  json (VObject (define props k v)) = true.
Proof.
  simpl. rewrite !andb_true_iff. intros [Ho Hv] Hj. split.
  - apply ordered_define. exact Ho.
  - rewrite forallb_forall in *. intros kv Hin.
    apply in_define in Hin as [->|Hin]; [exact Hj | auto].
Qed.

(** * The parser reads what the serializer writes *)

Lemma skip_blank ws p rest :
  blank ws = true -> parse_from LTop p (ws ++ rest) = parse_from LTop p rest.
Proof.
  induction ws as [|c ws IH]; simpl; intros H; [reflexivity|].
  apply andb_true_iff in H as [Hc Hws]. rewrite Hc. auto.
Qed.

Lemma hex_value_digit d : d < 16 -> hex_value (hex_digit d) = Some d.
Proof.
  intros H. unfold hex_digit, hex_value.
  destruct (d <? 10) eqn:E.
  - apply N.ltb_lt in E.
    replace ((48 <=? 48 + d) && (48 + d <=? 57)) with true.
    + f_equal. lia.
    + symmetry. apply andb_true_iff. split; apply N.leb_le; lia.
  - apply N.ltb_ge in E.
    replace ((48 <=? 87 + d) && (87 + d <=? 57)) with false.
    + replace ((97 <=? 87 + d) && (87 + d <=? 102)) with true.
      * f_equal. lia.
      * symmetry. apply andb_true_iff. split; apply N.leb_le; lia.
    + symmetry. apply andb_false_iff. right. apply N.leb_gt. lia.
Qed.

Lemma hex_parts c :
  c < 65536 ->
  c / 4096 < 16 /\ (c / 256) mod 16 < 16 /\ (c / 16) mod 16 < 16 /\ c mod 16 < 16 /\
  16 * (16 * (16 * (16 * 0 + c / 4096) + (c / 256) mod 16) + (c / 16) mod 16)
    + c mod 16 = c.
Proof.
  intros H.
  assert (D2 : c / 256 = c / 16 / 16) by (rewrite N.Div0.div_div; reflexivity).
  assert (D3 : c / 4096 = c / 16 / 16 / 16)
    by (rewrite !N.Div0.div_div; reflexivity).
  rewrite D2, D3.
  assert (E1 := N.Div0.div_mod c 16).
  assert (E2 := N.Div0.div_mod (c / 16) 16).
  assert (E3 := N.Div0.div_mod (c / 16 / 16) 16).
  assert (B1 := N.mod_lt c 16 ltac:(lia)).
  assert (B2 := N.mod_lt (c / 16) 16 ltac:(lia)).
  assert (B3 := N.mod_lt (c / 16 / 16) 16 ltac:(lia)).
  generalize dependent (c / 16 / 16 / 16).
  generalize dependent ((c / 16 / 16) mod 16).
  generalize dependent (c / 16 / 16).
  generalize dependent ((c / 16) mod 16).
  generalize dependent (c / 16).
  generalize dependent (c mod 16).
  intros. lia.
Qed.

Lemma read_plain_unit c acc p text :
  32 <= c -> c <> 34 -> c <> 92 ->
  parse_from (LString acc) p (c :: text) = parse_from (LString (c :: acc)) p text.
Proof.
  intros H32 H34 H92. cbn [parse_from].
  apply N.eqb_neq in H34, H92. rewrite H34, H92.
  replace (c <? 32) with false by (symmetry; apply N.ltb_ge; lia).
  reflexivity.
Qed.

Lemma read_hex_digit h d acc seen code p text :
  hex_value h = Some d ->
  parse_from (LHex acc seen code) p (h :: text) =
  match seen with
  | 3%nat => parse_from (LString (16 * code + d :: acc)) p text
  | _ => parse_from (LHex acc (S seen) (16 * code + d)) p text
  end.
Proof. intros H. cbn [parse_from]. rewrite H. reflexivity. Qed.

Lemma read_unicode_escape c acc p text :
  c < 65536 ->
  parse_from (LString acc) p (unicode_escape c ++ text) =
  parse_from (LString (c :: acc)) p text.
Proof.
  intros H. destruct (hex_parts c H) as (H3 & H2 & H1 & H0 & E).
  unfold unicode_escape.
  change (parse_from (LString acc) p
            ([92; 117; hex_digit (c / 4096); hex_digit ((c / 256) mod 16);
              hex_digit ((c / 16) mod 16); hex_digit (c mod 16)] ++ text))
    with (parse_from (LHex acc 0 0) p
            (hex_digit (c / 4096) :: hex_digit ((c / 256) mod 16) ::
             hex_digit ((c / 16) mod 16) :: hex_digit (c mod 16) :: text)).
  rewrite (read_hex_digit _ _ _ _ _ _ _ (hex_value_digit _ H3)).
  rewrite (read_hex_digit _ _ _ _ _ _ _ (hex_value_digit _ H2)).
  rewrite (read_hex_digit _ _ _ _ _ _ _ (hex_value_digit _ H1)).
  rewrite (read_hex_digit _ _ _ _ _ _ _ (hex_value_digit _ H0)).
  rewrite E. reflexivity.
Qed.

Lemma read_quote_unit c acc p text :
  parse_from (LString acc) p (quote_unit c ++ text) =
  parse_from (LString (c :: acc)) p text.
Proof.
  unfold quote_unit.
  repeat match goal with
  | |- context [if ?c =? ?n then _ else _] =>
      destruct (N.eqb_spec c n) as [->|?]; [reflexivity|]
  end.
  destruct ((c <? 32) || is_high_surrogate c || is_low_surrogate c) eqn:E.
  - apply read_unicode_escape.
    unfold is_high_surrogate, is_low_surrogate in E.
    rewrite !orb_true_iff, !andb_true_iff, N.ltb_lt, !N.leb_le in E. lia.
  - rewrite !orb_false_iff, N.ltb_ge in E. apply read_plain_unit; try tauto.
Qed.

Lemma read_surrogate c acc p text :
  55296 <= c ->
  parse_from (LString acc) p (c :: text) = parse_from (LString (c :: acc)) p text.
Proof. intros H. apply read_plain_unit; lia. Qed.

Lemma read_quote_units s p rest :
  forall acc,
    parse_from (LString acc) p (quote_units s ++ 34 :: rest) =
    after_string p (rev acc ++ s) rest.
Proof.
  enough (H : (forall acc, parse_from (LString acc) p (quote_units s ++ 34 :: rest) =
                           after_string p (rev acc ++ s) rest) /\
              (forall c acc,
                  parse_from (LString acc) p (quote_units (c :: s) ++ 34 :: rest) =
                  after_string p (rev acc ++ c :: s) rest)) by apply H.
  assert (Hstep : forall c tail acc,
             (forall acc', parse_from (LString acc') p (quote_units tail ++ 34 :: rest) =
                           after_string p (rev acc' ++ tail) rest) ->
             parse_from (LString acc) p ((quote_unit c ++ quote_units tail) ++ 34 :: rest) =
             after_string p (rev acc ++ c :: tail) rest).
  { intros c tail acc IH. rewrite <- app_assoc, read_quote_unit, IH.
    simpl. rewrite <- app_assoc. reflexivity. }
  induction s as [|l s [IH1 IH2]].
  - assert (H0 : forall acc, parse_from (LString acc) p (quote_units [] ++ 34 :: rest) =
                             after_string p (rev acc ++ []) rest).
    { intros acc. rewrite app_nil_r. reflexivity. }
    split; [exact H0|].
    intros c acc. simpl quote_units.
    specialize (Hstep c [] acc H0).
    destruct (is_high_surrogate c); [|exact Hstep].
    simpl in Hstep. rewrite app_nil_r in Hstep. exact Hstep.
  - split; [apply IH2|].
    intros c acc. simpl quote_units.
    destruct (is_high_surrogate c) eqn:Hc; [destruct (is_low_surrogate l) eqn:Hl|].
    + unfold is_high_surrogate in Hc. unfold is_low_surrogate in Hl.
      rewrite andb_true_iff, !N.leb_le in Hc, Hl.
      change ((c :: l :: quote_units s) ++ 34 :: rest)
        with (c :: l :: quote_units s ++ 34 :: rest).
      rewrite !read_surrogate by lia. rewrite IH1.
      simpl. rewrite <- ?app_assoc. reflexivity.
    + apply (Hstep c (l :: s) acc). apply IH2.
    + apply (Hstep c (l :: s) acc). apply IH2.
Qed.

Lemma read_string s p rest :
  parse_from LTop p (QuoteJSONString s ++ rest) = after_string p s rest.
Proof.
  unfold QuoteJSONString.
  change (parse_from LTop p ((34 :: quote_units s ++ [34]) ++ rest))
    with (parse_from (LString []) p ((quote_units s ++ [34]) ++ rest)).
  rewrite <- app_assoc. apply read_quote_units.
Qed.

Lemma shift_string p stk s :
  value_stack p = Some stk -> shift p (TString s) = Some (deliver (VString s) stk).
Proof. destruct p; simpl; intros H; inversion H; reflexivity. Qed.

Lemma realises_string s : realises (QuoteJSONString s) (VString s).
Proof.
  intros p stk rest H. rewrite read_string. unfold after_string.
  rewrite (shift_string _ _ _ H). reflexivity.
Qed.

Lemma realises_null : realises (str "null") VNull.
Proof. intros p stk rest H. destruct p; inversion H; reflexivity. Qed.

Lemma realises_true : realises (str "true") (VBool true).
Proof. intros p stk rest H. destruct p; inversion H; reflexivity. Qed.

Lemma realises_false : realises (str "false") (VBool false).
Proof. intros p stk rest H. destruct p; inversion H; reflexivity. Qed.

Lemma blank_app a b : blank (a ++ b) = blank a && blank b.
Proof. apply forallb_app. Qed.

Lemma wrap_shape o c gap indent parts :
  blank gap = true -> blank indent = true -> parts <> [] ->
  exists pre post,
    blank pre = true /\ blank post = true /\
    wrap o c gap indent parts = o :: pre ++ join (44 :: pre) parts ++ post ++ [c].
Proof.
  intros Hg Hi Hp. destruct parts as [|t ts]; [congruence|].
  destruct gap as [|g gap].
  - exists [], []. repeat split.
  - exists (10 :: indent ++ g :: gap), (10 :: indent). repeat split.
    + change (blank (10 :: indent ++ g :: gap)) with (blank (indent ++ g :: gap)).
      rewrite blank_app, Hg, Hi. reflexivity.
    + exact Hi.
Qed.

Lemma join_cons sep t ts :
  join sep (t :: ts) = t ++ List.concat (List.map (app sep) ts).
Proof.
  revert t. induction ts as [|t' ts IH]; intros t.
  - simpl. rewrite app_nil_r. reflexivity.
  - change (join sep (t :: t' :: ts)) with (t ++ sep ++ join sep (t' :: ts)).
    rewrite IH. simpl. rewrite <- app_assoc. reflexivity.
Qed.

Lemma shift_open_array p stk :
  value_stack p = Some stk -> shift p TLBracket = Some (PArrayStart stk).
Proof. destruct p; simpl; intros H; inversion H; reflexivity. Qed.

Lemma shift_open_object p stk :
  value_stack p = Some stk -> shift p TLBrace = Some (PObjectStart stk).
Proof. destruct p; simpl; intros H; inversion H; reflexivity. Qed.

Lemma read_punctuation c t p text :
  punctuation c = Some t ->
  parse_from LTop p (c :: text) =
  match shift p t with
  | Some p' => parse_from LTop p' text
  | None => Throw SyntaxError
  end.
Proof.
  intros H. cbn [parse_from].
  replace (is_whitespace c) with false.
  - rewrite H. reflexivity.
  - unfold punctuation in H. unfold is_whitespace.
    repeat match type of H with
    | (if ?c =? ?n then _ else _) = _ =>
        destruct (N.eqb_spec c n) as [->|?]; [reflexivity|]
    end.
    discriminate.
Qed.

(** Between the brackets: the parts after the first, each behind its
    comma, up to the closing bracket.  [pre] is the white space after a
    comma, [post] the white space before the closing bracket. *)
Section Between_brackets.

Variables (gap pre post : jsstring) (stk : list frame) (rest : jsstring).
Hypothesis Hpre : blank pre = true.
Hypothesis Hpost : blank post = true.

Lemma read_elements :
  forall ts es, Forall2 realises ts es ->
  forall done,
    parse_from LTop (PArrayNext done stk)
      (List.concat (List.map (app (44 :: pre)) ts) ++ post ++ 93 :: rest) =
    parse_from LTop (deliver (VArray (rev done ++ es)) stk) rest.
Proof.
  intros ts es H. induction H as [|t e ts es Hte _ IH]; intros done.
  - cbn [List.map List.concat app]. rewrite skip_blank by exact Hpost.
    rewrite (read_punctuation 93 TRBracket) by reflexivity.
    rewrite app_nil_r. reflexivity.
  - cbn [List.map List.concat]. rewrite <- ?app_assoc, <- ?app_comm_cons.
    rewrite (read_punctuation 44 TComma) by reflexivity. cbn [shift].
    rewrite <- ?app_assoc.
    rewrite skip_blank by exact Hpre.
    rewrite (Hte (PValue (FArray done :: stk)) (FArray done :: stk)) by reflexivity.
    cbn [deliver]. rewrite IH. cbn [rev]. rewrite <- app_assoc. reflexivity.
Qed.

Lemma read_member q acc k part v text :
  shift q (TString k) = Some (PColon acc k stk) ->
  member_realises gap part (k, v) ->
  parse_from LTop q (part ++ text) =
  parse_from LTop (PObjectNext (define acc k v) stk) text.
Proof.
  intros Hq (t & -> & Ht). cbn [fst snd] in *.
  rewrite <- !app_assoc, read_string. unfold after_string. rewrite Hq.
  assert (Hsep : forall more,
             parse_from LTop (PColon acc k stk) (colon_sep gap ++ more) =
             parse_from LTop (PValue (FObject acc k :: stk)) more).
  { intros more. destruct gap; reflexivity. }
  rewrite Hsep.
  rewrite (Ht (PValue (FObject acc k :: stk)) (FObject acc k :: stk)) by reflexivity.
  reflexivity.
Qed.

Lemma read_members :
  forall parts props, Forall2 (member_realises gap) parts props ->
  forall acc,
    ordered (keys (acc ++ props)) = true ->
    parse_from LTop (PObjectNext acc stk)
      (List.concat (List.map (app (44 :: pre)) parts) ++ post ++ 125 :: rest) =
    parse_from LTop (deliver (VObject (acc ++ props)) stk) rest.
Proof.
  intros parts props H.
  induction H as [|part [k v] parts props Hm _ IH]; intros acc Hord.
  - cbn [List.map List.concat app]. rewrite skip_blank by exact Hpost.
    rewrite (read_punctuation 125 TRBrace) by reflexivity.
    rewrite app_nil_r. reflexivity.
  - cbn [List.map List.concat]. rewrite <- ?app_assoc, <- ?app_comm_cons.
    rewrite (read_punctuation 44 TComma) by reflexivity. cbn [shift].
    rewrite <- ?app_assoc. rewrite skip_blank by exact Hpre.
    rewrite (read_member (PKey acc stk) acc k part v) by (reflexivity || exact Hm).
    assert (Hlast : define acc k v = acc ++ [(k, v)]).
    { apply define_last. rewrite keys_app in Hord.
      change (keys ((k, v) :: props)) with ([k] ++ keys props) in Hord.
      rewrite app_assoc in Hord. apply ordered_prefix in Hord. exact Hord. }
    rewrite Hlast, IH.
    + rewrite <- app_assoc. reflexivity.
    + rewrite <- app_assoc. exact Hord.
Qed.

End Between_brackets.

Lemma realises_array gap indent ts es :
  blank gap = true -> blank indent = true ->
  Forall2 realises ts es ->
  realises (wrap 91 93 gap indent ts) (VArray es).
Proof.
  intros Hg Hi H p stk rest Hp.
  destruct H as [|t e ts es Hte Hrest].
  - cbn [wrap app].
    rewrite (read_punctuation 91 TLBracket) by reflexivity.
    rewrite (shift_open_array _ _ Hp).
    rewrite (read_punctuation 93 TRBracket) by reflexivity. reflexivity.
  - destruct (wrap_shape 91 93 gap indent (t :: ts) Hg Hi) as (pre & post & Hpre & Hpost & E);
      [discriminate|].
    rewrite E, join_cons. rewrite <- ?app_comm_cons.
    rewrite (read_punctuation 91 TLBracket) by reflexivity.
    rewrite (shift_open_array _ _ Hp).
    rewrite <- ?app_assoc. rewrite skip_blank by exact Hpre.
    rewrite (Hte (PArrayStart stk) (FArray [] :: stk)) by reflexivity.
    cbn [deliver].
    change ([93] ++ rest) with (93 :: rest).
    rewrite (read_elements pre post stk rest Hpre Hpost ts es Hrest). reflexivity.
Qed.

Lemma realises_object gap indent parts props :
  blank gap = true -> blank indent = true ->
  Forall2 (member_realises gap) parts props ->
  ordered (keys props) = true ->
  realises (wrap 123 125 gap indent parts) (VObject props).
Proof.
  intros Hg Hi H Hord p stk rest Hp.
  destruct H as [|part [k v] parts props Hm Hrest].
  - cbn [wrap app].
    rewrite (read_punctuation 123 TLBrace) by reflexivity.
    rewrite (shift_open_object _ _ Hp).
    rewrite (read_punctuation 125 TRBrace) by reflexivity. reflexivity.
  - destruct (wrap_shape 123 125 gap indent (part :: parts) Hg Hi)
      as (pre & post & Hpre & Hpost & E); [discriminate|].
    rewrite E, join_cons. rewrite <- ?app_comm_cons.
    rewrite (read_punctuation 123 TLBrace) by reflexivity.
    rewrite (shift_open_object _ _ Hp).
    rewrite <- ?app_assoc. rewrite skip_blank by exact Hpre.
    rewrite (read_member gap stk (PObjectStart stk) [] k part v)
      by (reflexivity || exact Hm).
    assert (Hfirst : define [] k v = [(k, v)]).
    { unfold define. simpl. destruct (array_index k); reflexivity. }
    rewrite Hfirst.
    change ([125] ++ rest) with (125 :: rest).
    rewrite (read_members gap pre post stk rest Hpre Hpost parts props Hrest [(k, v)] Hord).
    reflexivity.
Qed.

(** What [serialize] writes for a well-formed value is read back as that
    value. *)
Lemma serialize_realises gap :
  blank gap = true ->
  forall v, json v = true ->
  forall indent, blank indent = true ->
  exists t, serialize gap indent v = Some t /\ realises t v.
Proof.
  intros Hg v. induction v as [ | | b | s | elems IH | props IH ] using value_induction;
    intros Hj indent Hi.
  - discriminate.
  - eexists. split; [reflexivity | apply realises_null].
  - destruct b; eexists; (split; [reflexivity|]);
      [apply realises_true | apply realises_false].
  - eexists. split; [reflexivity | apply realises_string].
  - exists (wrap 91 93 gap indent
              (List.map (fun e => match serialize gap (indent ++ gap) e with
                                  | Some t => t
                                  | None => str "null"
                                  end) elems)).
    split; [reflexivity|].
    apply realises_array; [exact Hg | exact Hi |].
    cbn [json] in Hj. induction IH as [|e elems He _ IHl]; cbn [List.map].
    + constructor.
    + cbn [forallb] in Hj. apply andb_true_iff in Hj as [Hje Hjl].
      constructor; [| apply IHl; exact Hjl].
      destruct (He Hje (indent ++ gap)) as (t & E & Ht).
      { rewrite blank_app, Hi, Hg. reflexivity. }
      cbv beta. rewrite E. exact Ht.
  - exists (wrap 123 125 gap indent
              (List.flat_map
                 (fun kv => match serialize gap (indent ++ gap) (snd kv) with
                            | Some t => [QuoteJSONString (fst kv) ++ colon_sep gap ++ t]
                            | None => []
                            end) props)).
    split; [reflexivity|].
    cbn [json] in Hj. apply andb_true_iff in Hj as [Hord Hj].
    apply realises_object; [exact Hg | exact Hi | | exact Hord].
    clear Hord. induction IH as [|[k e] props He _ IHl]; cbn [List.flat_map].
    + constructor.
    + cbn [forallb snd] in Hj. apply andb_true_iff in Hj as [Hje Hjl].
      cbn [snd fst] in *.
      destruct (He Hje (indent ++ gap)) as (t & E & Ht).
      { rewrite blank_app, Hi, Hg. reflexivity. }
      cbv beta. cbn [snd fst]. rewrite E.
      cbn [app]. constructor; [| apply IHl; exact Hjl].
      exists t. split; [reflexivity | exact Ht].
Qed.

Lemma parse_stringify gap v t :
  blank gap = true -> json v = true ->
  serialize gap [] v = Some t -> JSON_parse t = Normal v.
Proof.
  intros Hg Hj Ht.
  destruct (serialize_realises gap Hg v Hj [] eq_refl) as (t' & E & Hr).
  assert (t' = t) by congruence. subst t'.
  unfold JSON_parse. rewrite <- (app_nil_r t).
  rewrite (Hr (PValue []) [] []) by reflexivity. reflexivity.
Qed.

(** * What the parser returns is well formed *)

Lemma json_deliver v stk :
  json v = true -> forallb json_frame stk = true ->
  json_syntax (deliver v stk) = true.
Proof.
  intros Hv Hs. destruct stk as [|[done|props key] stk]; cbn [deliver json_syntax].
  - exact Hv.
  - cbn [forallb json_frame] in *. apply andb_true_iff in Hs as [Hd Hs].
    rewrite Hv, Hd, Hs. reflexivity.
  - cbn [forallb json_frame] in Hs. apply andb_true_iff in Hs as [Hp Hs].
    rewrite (json_define _ _ _ Hp Hv), Hs. reflexivity.
Qed.

Lemma forallb_rev {A} (f : A -> bool) l : forallb f (rev l) = forallb f l.
Proof.
  induction l as [|x l IH]; [reflexivity|].
  cbn [rev]. rewrite forallb_app, IH. cbn [forallb].
  rewrite andb_true_r. apply andb_comm.
Qed.

Lemma json_start_value t stk p :
  forallb json_frame stk = true -> start_value t stk = Some p ->
  json_syntax p = true.
Proof.
  intros Hs H. destruct t; cbn [start_value] in H; inversion H; subst;
    try (apply json_deliver; [reflexivity | exact Hs]); exact Hs.
Qed.

Lemma json_shift p t p' :
  json_syntax p = true -> shift p t = Some p' -> json_syntax p' = true.
Proof.
  intros Hp H. destruct p; cbn [json_syntax] in Hp.
  - apply (json_start_value t stk); assumption.
  - destruct t; cbn [shift] in H;
      try exact (json_start_value _ (FArray [] :: stk) p' Hp H).
    inversion H. apply json_deliver; [reflexivity | exact Hp].
  - apply andb_true_iff in Hp as [Hd Hs].
    destruct t; cbn [shift] in H; inversion H; subst.
    + apply json_deliver; [| exact Hs]. cbn [json]. rewrite forallb_rev. exact Hd.
    + cbn [json_syntax forallb json_frame]. rewrite Hd, Hs. reflexivity.
  - destruct t; cbn [shift] in H; inversion H; subst.
    + apply json_deliver; [reflexivity | exact Hp].
    + cbn [json_syntax]. rewrite Hp. reflexivity.
  - destruct t; cbn [shift] in H; inversion H; subst. exact Hp.
  - apply andb_true_iff in Hp as [Hd Hs].
    destruct t; cbn [shift] in H; inversion H; subst.
    cbn [json_syntax forallb json_frame]. rewrite Hd, Hs. reflexivity.
  - destruct t; cbn [shift] in H; inversion H; subst.
    + apply andb_true_iff in Hp as [Hd Hs]. apply json_deliver; assumption.
    + exact Hp.
  - destruct t; discriminate.
Qed.

Lemma parse_from_json text :
  forall m p v,
    json_syntax p = true -> parse_from m p text = Normal v -> json v = true.
Proof.
  induction text as [|c text IH]; intros m p v Hp H.
  - destruct m, p; cbn [parse_from] in H; try discriminate.
    inversion H. subst. exact Hp.
  - destruct m; cbn [parse_from] in H;
      repeat match type of H with
      | (if ?b then _ else _) = _ => destruct b
      | match ?x with _ => _ end = _ =>
          let E := fresh "E" in destruct x eqn:E
      | Throw _ = _ => discriminate H
      | Beyond = _ => discriminate H
      | parse_from _ p _ = _ => exact (IH _ _ _ Hp H)
      | parse_from ?m' ?q _ = _ =>
          apply (IH m' q _); [eapply json_shift; [exact Hp | eassumption] | exact H]
      end.
Qed.

Lemma JSON_parse_json text v : JSON_parse text = Normal v -> json v = true.
Proof. apply parse_from_json. reflexivity. Qed.

(** * The routing store *)

Lemma json_route target name :
  json target = true -> json name = true -> json (route target name) = true.
Proof.
  intros Ht Hn. unfold route. cbn [json List.map fst snd forallb].
  rewrite Ht, Hn. reflexivity.
Qed.

(** Tables of routes are well formed when their hostnames are in
    own-property order. *)
Lemma routing_table_json entries :
  ordered (List.map fst entries) = true -> json (routing_table entries) = true.
Proof.
  intros Ho. unfold routing_table. cbn [json].
  rewrite map_map, (map_ext _ fst) by reflexivity.
  rewrite Ho. cbn [andb].
  induction entries as [|e entries IH]; [reflexivity|].
  cbn [List.map forallb snd]. rewrite IH.
  - reflexivity.
  - cbn [List.map] in Ho. apply ordered_cons in Ho. tauto.
Qed.

Lemma json_own props k v :
  json (VObject props) = true -> own props k = Some v -> json v = true.
Proof.
  cbn [json]. rewrite andb_true_iff. intros [_ H].
  induction props as [|[k' v'] rest IH]; cbn [own]; [discriminate|].
  cbn [forallb snd] in H. apply andb_true_iff in H as [Hv Hrest].
  destruct (eqs k' k); [intros E; inversion E; subst; exact Hv | auto].
Qed.

Lemma json_serialize gap indent v :
  json v = true -> exists t, serialize gap indent v = Some t.
Proof. destruct v as [| |[|]| | |]; try discriminate; intros _; eexists; reflexivity. Qed.

(** An object takes the property by [define]. *)
Lemma Set_object props k v o :
  Set_ (VObject props) k v = Normal o -> o = VObject (define props k v).
Proof.
  cbn [Set_]. destruct (own props k) eqn:E.
  - intros H. inversion H. unfold define. rewrite E. reflexivity.
  - destruct (eqs k (str "__proto__")); [discriminate|].
    intros H. inversion H. reflexivity.
Qed.

Lemma Set_json o k v o' :
  json o = true -> json v = true -> Set_ o k v = Normal o' -> json o' = true.
Proof.
  intros Ho Hv H. destruct o as [| | b | s | elems | props]; cbn [Set_] in H;
    try discriminate; try (inversion H; subst; exact Ho).
  apply Set_object in H. subst. apply json_define; assumption.
Qed.



Lemma Set_own props k v o :
  Set_ (VObject props) k v = Normal o -> exists props',
    o = VObject props' /\ own props' k = Some v.
Proof.
  intros H. apply Set_object in H. subst. eexists. split; [reflexivity|].
  apply own_define_same.
Qed.

Lemma blank_two_spaces : blank [32; 32] = true.
Proof. reflexivity. Qed.

Lemma parse_stringify_2 v t :
  json v = true -> JSON_stringify_2 v = Some t -> JSON_parse t = Normal v.
Proof. apply parse_stringify. reflexivity. Qed.

Lemma sound_json w : sound w = true -> json (defaults w) = true.
Proof. unfold sound. destruct (defaults w); try discriminate. auto. Qed.

Lemma sound_object w :
  sound w = true -> exists props, defaults w = VObject props.
Proof. unfold sound. destruct (defaults w); try discriminate. eauto. Qed.

Lemma try_write_defaults_defaults w : defaults (try_write_defaults w) = defaults w.
Proof.
  unfold try_write_defaults, writeFileSync.
  destruct (JSON_stringify_2 (defaults w)); [|reflexivity].
  destruct (writable w); reflexivity.
Qed.

Lemma try_write_defaults_writable w : writable (try_write_defaults w) = writable w.
Proof.
  unfold try_write_defaults, writeFileSync.
  destruct (JSON_stringify_2 (defaults w)); [|reflexivity].
  destruct (writable w) eqn:E; [|exact E]. reflexivity.
Qed.

Lemma try_write_defaults_refused w :
  writable w = false -> try_write_defaults w = w.
Proof.
  intros H. unfold try_write_defaults, writeFileSync. rewrite H.
  destruct (JSON_stringify_2 (defaults w)); reflexivity.
Qed.

Lemma try_write_defaults_done w :
  writable w = true -> json (defaults w) = true ->
  exists data,
    JSON_stringify_2 (defaults w) = Some data /\
    try_write_defaults w =
      {| storage := Some data; writable := true; defaults := defaults w |}.
Proof.
  intros H Hj. destruct (json_serialize [32; 32] [] _ Hj) as (data & E).
  exists data. split; [exact E|].
  unfold try_write_defaults, writeFileSync, JSON_stringify_2. rewrite E, H.
  reflexivity.
Qed.

Lemma try_write_defaults_sound w : sound (try_write_defaults w) = sound w.
Proof. unfold sound. rewrite try_write_defaults_defaults. reflexivity. Qed.

(** The three ways [loadConfig] can go. *)
Lemma loadConfig_cases w :
  (exists text v, storage w = Some text /\ JSON_parse text = Normal v /\
                  loadConfig w = Returns (Parsed v) w) \/
  ((storage w = None \/
    exists text e, storage w = Some text /\ JSON_parse text = Throw e) /\
   loadConfig w = Returns TheDefaults (try_write_defaults w)) \/
  ((exists text, storage w = Some text /\ JSON_parse text = Beyond) /\
   loadConfig w = Outside).
Proof.
  unfold loadConfig. destruct (storage w) as [text|] eqn:Es.
  - destruct (JSON_parse text) as [v|e|] eqn:Ep.
    + left. eauto.
    + right. left. split; [right; eauto | reflexivity].
    + right. right. split; [eauto | reflexivity].
  - right. left. split; [left; reflexivity | reflexivity].
Qed.

Lemma loadConfig_never_throws w e w' : loadConfig w <> Throws e w'.
Proof.
  destruct (loadConfig_cases w) as [(t & v & _ & _ & E)|[[_ E]|[_ E]]];
    rewrite E; discriminate.
Qed.

Lemma loadConfig_world w c w' :
  loadConfig w = Returns c w' ->
  defaults w' = defaults w /\ writable w' = writable w /\
  (w' = w \/ c = TheDefaults).
Proof.
  destruct (loadConfig_cases w) as [(t & v & _ & _ & E)|[[_ E]|[_ E]]];
    rewrite E; intros H; inversion H; subst.
  - auto.
  - rewrite try_write_defaults_defaults, try_write_defaults_writable. auto.
Qed.

Lemma loadConfig_json w c w' :
  sound w = true -> loadConfig w = Returns c w' -> json (contents w' c) = true.
Proof.
  intros Hs.
  destruct (loadConfig_cases w) as [(t & v & _ & Hp & E)|[[_ E]|[_ E]]];
    rewrite E; intros H; inversion H; subst; cbn [contents].
  - apply (JSON_parse_json t). exact Hp.
  - rewrite try_write_defaults_defaults. apply sound_json. exact Hs.
Qed.

Lemma loadConfig_written v data w :
  json v = true -> JSON_stringify_2 v = Some data -> storage w = Some data ->
  loadConfig w = Returns (Parsed v) w.
Proof.
  intros Hj Hd Hs. unfold loadConfig.
  rewrite Hs, (parse_stringify_2 v data Hj Hd). reflexivity.
Qed.

(** Loading twice in a row finds the same table. *)
Lemma loadConfig_again w c w1 :
  sound w = true -> loadConfig w = Returns c w1 ->
  exists c1, loadConfig w1 = Returns c1 w1 /\ contents w1 c1 = contents w1 c.
Proof.
  intros Hs.
  destruct (loadConfig_cases w) as [(t & v & _ & _ & E)|[[Hd E]|[_ E]]];
    rewrite E; intros H; inversion H; subst.
  - exists (Parsed v). auto.
  - destruct (writable w) eqn:Hw.
    + destruct (try_write_defaults_done w Hw (sound_json w Hs)) as (data & Ed & ->).
      exists (Parsed (defaults w)). split; [|reflexivity].
      apply (loadConfig_written _ data); [apply sound_json; exact Hs | exact Ed | reflexivity].
    + rewrite (try_write_defaults_refused w Hw) in *.
      exists TheDefaults. auto.
Qed.

Lemma saveConfig_cases c w :
  (exists data, JSON_stringify_2 (contents w c) = Some data /\ writable w = true /\
                saveConfig c w =
                  (true, {| storage := Some data; writable := true;
                            defaults := defaults w |})) \/
  ((JSON_stringify_2 (contents w c) = None \/ writable w = false) /\
   saveConfig c w = (false, w)).
Proof.
  unfold saveConfig, writeFileSync.
  destruct (JSON_stringify_2 (contents w c)) as [data|] eqn:E.
  - destruct (writable w) eqn:Hw.
    + left. exists data. auto.
    + right. auto.
  - right. auto.
Qed.

Lemma assign_returns c key v w c' w' :
  assign c key v w = Returns c' w' ->
  exists o, Set_ (contents w c) key v = Normal o /\ (c', w') = assigned c o w /\
            contents w' c' = o.
Proof.
  unfold assign. destruct (Set_ (contents w c) key v) as [o| |]; try discriminate.
  destruct c; intros H; inversion H; subst; exists o; auto.
Qed.

Lemma addIssuer_returns h t n w ok w' :
  addIssuer h t n w = Returns ok w' ->
  exists c0 w1 o c' w2,
    loadConfig w = Returns c0 w1 /\
    Set_ (contents w1 c0) (ToString h) (route t n) = Normal o /\
    (c', w2) = assigned c0 o w1 /\ contents w2 c' = o /\
    saveConfig c' w2 = (ok, w').
Proof.
  unfold addIssuer. destruct (loadConfig w) as [c0 w1| |]; try discriminate.
  destruct (assign c0 (ToString h) (route t n) w1) as [c' w2| |] eqn:Ea;
    try discriminate.
  destruct (saveConfig c' w2) as [ok' w3] eqn:Es. intros H. inversion H; subst.
  apply assign_returns in Ea as (o & Ho & Ha & Hc).
  exists c0, w1, o, c', w2. auto.
Qed.

Lemma addIssuer_throws h t n w e w' :
  sound w = true -> addIssuer h t n w = Throws e w' ->
  w' = w /\ exists v, loadConfig w = Returns (Parsed v) w /\
                      Set_ v (ToString h) (route t n) = Throw e.
Proof.
  intros Hs. unfold addIssuer.
  destruct (loadConfig w) as [c0 w1|e0 w1|] eqn:El; try discriminate.
  - unfold assign.
    destruct (Set_ (contents w1 c0) (ToString h) (route t n)) as [o|e1|] eqn:E;
      try discriminate.
    + destruct c0.
      * destruct (saveConfig (Parsed o) w1); discriminate.
      * destruct (saveConfig TheDefaults _); discriminate.
    + intros H. inversion H; subst.
      destruct (loadConfig_world _ _ _ El) as (Hd & _ & [-> | ->]).
      * destruct c0 as [v|].
        -- split; [reflexivity|]. exists v. auto.
        -- destruct (sound_object w Hs) as (props & Ep). cbn [contents] in E.
           rewrite Ep in E. cbn [Set_] in E.
           destruct (own props (ToString h)); [discriminate|].
           destruct (eqs (ToString h) (str "__proto__")); discriminate.
      * cbn [contents] in E. rewrite Hd in E.
        destruct (sound_object w Hs) as (props & Ep). rewrite Ep in E.
        cbn [Set_] in E.
        destruct (own props (ToString h)); [discriminate|].
        destruct (eqs (ToString h) (str "__proto__")); discriminate.
  - exfalso. exact (loadConfig_never_throws _ _ _ El).
Qed.

Lemma Set_object_kind o k v o' :
  Set_ o k v = Normal o' ->
  (exists props, o = VObject props) -> exists props', o' = VObject props'.
Proof.
  intros H (props & ->). apply Set_object in H. eauto.
Qed.

Lemma addIssuer_sound h t n w ok w' :
  sound w = true -> json t = true -> json n = true ->
  addIssuer h t n w = Returns ok w' -> sound w' = true.
Proof.
  intros Hs Ht Hn H.
  apply addIssuer_returns in H as (c0 & w1 & o & c' & w2 & El & Eo & Ea & _ & Es).
  destruct (loadConfig_world _ _ _ El) as (Hd & _ & _).
  assert (Hs1 : sound w1 = true) by (unfold sound in *; rewrite Hd; exact Hs).
  assert (Hs2 : sound w2 = true).
  { destruct c0; cbn [assigned] in Ea; inversion Ea; subst; [exact Hs1|].
    cbn [contents] in Eo. unfold sound. cbn [defaults].
    destruct (Set_object_kind _ _ _ _ Eo (sound_object _ Hs1)) as (props' & E').
    rewrite E'. rewrite <- E'.
    apply (Set_json _ _ _ _ (sound_json _ Hs1) (json_route _ _ Ht Hn) Eo). }
  destruct (saveConfig_cases c' w2) as [(data & _ & _ & E)|[_ E]];
    rewrite E in Es; inversion Es; subst; exact Hs2.
Qed.



Lemma world_eta w :
  {| storage := storage w; writable := writable w; defaults := defaults w |} = w.
Proof. destruct w. reflexivity. Qed.

(** After a successful [addIssuer] the file holds the table with the
    new property, and loading finds exactly that table. *)
Lemma addIssuer_saved h t n w w' :
  sound w = true -> json t = true -> json n = true ->
  addIssuer h t n w = Returns true w' ->
  exists c0 w1 o data,
    loadConfig w = Returns c0 w1 /\
    Set_ (contents w1 c0) (ToString h) (route t n) = Normal o /\
    json o = true /\ JSON_stringify_2 o = Some data /\
    w' = {| storage := Some data; writable := true;
            defaults := match c0 with Parsed _ => defaults w | TheDefaults => o end |} /\
    loadConfig w' = Returns (Parsed o) w'.
Proof.
  intros Hs Ht Hn H.
  apply addIssuer_returns in H as (c0 & w1 & o & c' & w2 & El & Eo & Ea & Ec & Es).
  destruct (loadConfig_world _ _ _ El) as (Hd & _ & _).
  assert (Hjo : json o = true).
  { apply (Set_json _ _ _ _ (loadConfig_json _ _ _ Hs El) (json_route _ _ Ht Hn) Eo). }
  destruct (saveConfig_cases c' w2) as [(data & Ed & Hw & E)|[_ E]];
    rewrite E in Es; inversion Es; subst w'; clear Es E.
  rewrite Ec in Ed. exists c0, w1, o, data.
  assert (Hdef : defaults w2 =
                 match c0 with Parsed _ => defaults w | TheDefaults => o end).
  { destruct c0; cbn [assigned] in Ea; inversion Ea; subst; [exact Hd | reflexivity]. }
  rewrite Hdef. repeat split; try assumption.
  apply (loadConfig_written o data); auto.
Qed.


(** * Reachable states *)

Lemma boot_sound file can_write : sound (boot file can_write) = true.
Proof. reflexivity. Qed.

Lemma reachable_sound w : reachable w -> sound w = true.
Proof.
  induction 1 as [file cw | w file cw _ IH | w w' c _ IH El
                  | w w' h t n ok _ IH Hh Ht Hn Ea].
  - apply boot_sound.
  - exact IH.
  - destruct (loadConfig_world _ _ _ El) as (Hd & _ & _).
    unfold sound. rewrite Hd. exact IH.
  - apply (addIssuer_sound h t n w ok w'); assumption.
Qed.


(** * The dispatcher *)








(** C10: without a Host header [handleRequest] throws a [TypeError]
    before it loads the table or writes any response. *)
Theorem missing_host_header_throws probe (req : request) (w : world) :
  headers_host req = None -> handleRequest probe req w = Throws TypeError w.
Proof.
  intros H. unfold handleRequest, request_hostname. rewrite H. reflexivity.
Qed.

Lemma missing_host_header_throws_witness :
  handleRequest (fun _ => TimedOut) no_host (boot None true)
  = Throws TypeError (boot None true).
Proof. apply missing_host_header_throws. reflexivity. Defined.





(** * Discovery *)

Lemma discover_loop_exhausted probe candidates hostname req w :
  (forall q, In q candidates -> is_200 (probe q) = false) ->
  forall tried,
    discover_loop probe candidates tried hostname req w =
    Returns {| answer := Respond 404 application_json
                           (json_body (issuer_not_found hostname));
               probed := rev tried ++ candidates |} w.
Proof.
  induction candidates as [|port later IH]; intros Hall tried; cbn [discover_loop].
  - rewrite app_nil_r. reflexivity.
  - rewrite (Hall port) by (left; reflexivity).
    rewrite IH by (intros q Hq; apply Hall; right; exact Hq).
    cbn [rev]. rewrite <- app_assoc. reflexivity.
Qed.

Lemma discover_loop_found probe before port after hostname req w :
  (forall q, In q before -> is_200 (probe q) = false) ->
  is_200 (probe port) = true ->
  forall tried,
    discover_loop probe (before ++ port :: after) tried hostname req w =
    match addIssuer (VString hostname) (VString (localhost_at port))
            (VString (discovered_label hostname)) w with
    | Returns _ w' =>
        Returns {| answer := ProxyWeb req (VString (localhost_at port));
                   probed := rev tried ++ before ++ [port] |} w'
    | Throws e w' => Throws e w'
    | Outside => Outside
    end.
Proof.
  intros Hall Hport. induction before as [|q before IH]; intros tried.
  - cbn [app discover_loop]. rewrite Hport.
    destruct (addIssuer _ _ _ w); reflexivity.
  - cbn [app discover_loop]. rewrite (Hall q) by (left; reflexivity).
    rewrite IH by (intros q' Hq'; apply Hall; right; exact Hq').
    destruct (addIssuer _ _ _ w); try reflexivity.
    cbn [rev]. rewrite <- app_assoc. reflexivity.
Qed.

Lemma json_issuer_not_found hostname : json (issuer_not_found hostname) = true.
Proof. reflexivity. Qed.

(** Seen from the dispatcher: a request for the well-known path whose
    host the table does not know ends in that 404, and the table read
    afterwards is the table read before. *)
Lemma dispatch_discovery_exhausted probe (req : request) (w w1 : world)
    (host : jsstring) (c : config) (entry : value) :
  sound w = true ->
  headers_host req = Some host -> url req = well_known ->
  loadConfig w = Returns c w1 ->
  Get (contents w1 c) (split_colon_0 host) = Normal entry ->
  ToBoolean entry = false ->
  (forall q, In q ports -> is_200 (probe q) = false) ->
  handleRequest probe req w =
    Returns {| answer := Respond 404 application_json
                           (json_body (issuer_not_found (split_colon_0 host)));
               probed := ports |} w1 /\
  table w1 = table w.
Proof.
  intros Hs Hh Hu El Hg Hf Hall. split.
  - unfold handleRequest, request_hostname. rewrite Hh, El, Hu.
    replace (startsWith well_known (str "/proxy-admin")) with false by reflexivity.
    rewrite andb_false_r. unfold route_request. rewrite Hg, Hf, Hu.
    replace (eqs well_known well_known) with true by reflexivity.
    unfold discoverIssuer. rewrite discover_loop_exhausted by exact Hall.
    reflexivity.
  - destruct (loadConfig_again w c w1 Hs El) as (c1 & El1 & Ec).
    unfold table. rewrite El1, El, Ec. reflexivity.
Qed.

(** C6: when no candidate port answers 200, [discoverIssuer] has probed
    each port once, in order, answers 404 with a JSON object of the
    fields [error], [message] and [admin_url], and leaves the file and
    the table as they were; so does the dispatcher that called it for a
    host the table does not know. *)
Theorem discovery_exhausted probe (hostname : jsstring) (req : request) (w : world) :
  (forall q, In q ports -> is_200 (probe q) = false) ->
  let not_found :=
    {| answer := Respond 404 application_json
                   (json_body (issuer_not_found hostname));
       probed := ports |} in
  discoverIssuer probe hostname req w = Returns not_found w /\
  (exists text,
      json_body (issuer_not_found hostname) = Text text /\
      JSON_parse text = Normal (issuer_not_found hostname)) /\
  holds (issuer_not_found hostname) (str "error") = true /\
  holds (issuer_not_found hostname) (str "message") = true /\
  holds (issuer_not_found hostname) (str "admin_url") = true /\
  forall w0 c host entry,
    sound w0 = true ->
    headers_host req = Some host -> split_colon_0 host = hostname ->
    url req = well_known ->
    loadConfig w0 = Returns c w ->
    Get (contents w c) hostname = Normal entry -> ToBoolean entry = false ->
    handleRequest probe req w0 = Returns not_found w /\ table w = table w0.
Proof.
  intros Hall not_found. split; [|split; [|split; [|split; [|split]]]];
    try reflexivity.
  - unfold discoverIssuer. rewrite discover_loop_exhausted by exact Hall. reflexivity.
  - destruct (json_serialize [] [] _ (json_issuer_not_found hostname)) as (text & E).
    exists text. unfold json_body, JSON_stringify. rewrite E. split; [reflexivity|].
    apply (parse_stringify [] (issuer_not_found hostname));
      [reflexivity | reflexivity | exact E].
  - intros w0 c host entry Hs Hh <- Hu El Hg Hf.
    apply (dispatch_discovery_exhausted probe req w0 w host c entry); assumption.
Qed.

Lemma discovery_exhausted_witness :
  discoverIssuer (fun _ => Status 404) (str "unknown.example")
    (get "unknown.example" "/.well-known/openid-credential-issuer") (boot None true)
  = Returns {| answer := Respond 404 application_json
                           (json_body (issuer_not_found (str "unknown.example")));
               probed := ports |} (boot None true).
Proof.
  apply (discovery_exhausted (fun _ => Status 404)). intros q _. reflexivity.
Defined.

Lemma table_loadConfig w v :
  table w = Some v -> exists c w1, loadConfig w = Returns c w1 /\ contents w1 c = v.
Proof.
  unfold table. destruct (loadConfig w) as [c w1| |]; try discriminate.
  intros H. inversion H. eauto.
Qed.

(** A successful [addIssuer] on a table that is an object: the table
    read afterwards is the old one with the key set to the new route. *)
Lemma addIssuer_registers h t n w w' props :
  sound w = true -> json t = true -> json n = true ->
  table w = Some (VObject props) ->
  addIssuer h t n w = Returns true w' ->
  table w' = Some (VObject (define props (ToString h) (route t n))).
Proof.
  intros Hs Ht Hn Htab Ha.
  destruct (table_loadConfig _ _ Htab) as (c & w1 & El & Ec).
  destruct (addIssuer_saved _ _ _ _ _ Hs Ht Hn Ha)
    as (c0 & w1' & o & data & El0 & Eo & _ & _ & _ & El').
  rewrite El in El0. inversion El0; subst c0 w1'.
  rewrite Ec in Eo. apply Set_object in Eo. subst o.
  unfold table. rewrite El'. reflexivity.
Qed.



(** * Idempotence of [addIssuer] *)



(** * Loading and saving *)








(** * The admin API *)

Lemma Get_json o k v :
  json o = true -> Get o k = Normal v -> json v = true \/ v = VUndefined.
Proof.
  intros Hj. destruct o as [| | b | s | elems | props]; cbn [Get]; try discriminate.
  destruct (own props k) as [x|] eqn:E.
  - intros H. inversion H; subst. left. apply (json_own props k); assumption.
  - destruct (inherited k); [discriminate|]. intros H. inversion H. auto.
Qed.

Lemma truthy_json v :
  json v = true \/ v = VUndefined -> ToBoolean v = true -> json v = true.
Proof. intros [H| ->]; [auto | discriminate]. Qed.

Lemma parse_add_body_json text h t n :
  parse_add_body text = Normal (h, t, n) ->
  (json h = true \/ h = VUndefined) /\ (json t = true \/ t = VUndefined) /\
  (json n = true \/ n = VUndefined).
Proof.
  unfold parse_add_body. destruct (JSON_parse text) as [o| |] eqn:Ep; try discriminate.
  apply JSON_parse_json in Ep.
  destruct (Get o (str "hostname")) as [h'| |] eqn:Eh;
    destruct (Get o (str "target")) as [t'| |] eqn:Et;
    destruct (Get o (str "name")) as [n'| |] eqn:En; try discriminate.
  intros H. inversion H; subst.
  repeat split; eapply Get_json; eauto.
Qed.




(** * Requests keep the process among the reachable states *)

Lemma addIssuer_reachable h t n w :
  reachable w -> json h = true -> json t = true -> json n = true ->
  match addIssuer h t n w with
  | Returns _ w' | Throws _ w' => reachable w'
  | Outside => True
  end.
Proof.
  intros Hr Hh Ht Hn. destruct (addIssuer h t n w) as [ok w'|e w'|] eqn:E.
  - exact (reach_addIssuer w w' h t n ok Hr Hh Ht Hn E).
  - destruct (addIssuer_throws _ _ _ _ _ _ (reachable_sound w Hr) E) as (-> & _).
    exact Hr.
  - exact I.
Qed.

Lemma discover_loop_reachable probe candidates hostname req w :
  reachable w ->
  forall tried,
    match discover_loop probe candidates tried hostname req w with
    | Returns _ w' | Throws _ w' => reachable w'
    | Outside => True
    end.
Proof.
  intros Hr. induction candidates as [|port later IH]; intros tried;
    cbn [discover_loop].
  - exact Hr.
  - destruct (is_200 (probe port)); [|apply IH].
    assert (H := addIssuer_reachable (VString hostname) (VString (localhost_at port))
                   (VString (discovered_label hostname)) w Hr eq_refl eq_refl eq_refl).
    destruct (addIssuer _ _ _ w); exact H.
Qed.

Lemma handleAdminRequest_reachable req w :
  reachable w ->
  match handleAdminRequest req w with
  | Returns _ w' | Throws _ w' => reachable w'
  | Outside => True
  end.
Proof.
  intros Hr. unfold handleAdminRequest.
  destruct (eqs (url req) (str "/proxy-admin/list") && eqs (method req) (str "GET")).
  { destruct (loadConfig w) as [c w'|e w'|] eqn:El.
    - exact (reach_loadConfig w w' c Hr El).
    - exfalso. exact (loadConfig_never_throws _ _ _ El).
    - exact I. }
  destruct (eqs (url req) (str "/proxy-admin/add") && eqs (method req) (str "POST")).
  { unfold admin_add.
    destruct (parse_add_body (body req)) as [[[h t] n]|e|] eqn:Ep; [|exact Hr|exact I].
    destruct (parse_add_body_json _ _ _ _ Ep) as (Hjh & Hjt & Hjn).
    destruct (ToBoolean h) eqn:Eh; [|exact Hr].
    destruct (ToBoolean t) eqn:Et; [|exact Hr].
    cbn [negb orb].
    assert (H := addIssuer_reachable h t (or_else n h) w Hr
                   (truthy_json h Hjh Eh) (truthy_json t Hjt Et)).
    assert (Hn : json (or_else n h) = true).
    { unfold or_else. destruct (ToBoolean n) eqn:En; apply truthy_json; assumption. }
    specialize (H Hn).
    destruct (addIssuer h t (or_else n h) w) as [[|] w'|e w'|]; exact H. }
  destruct (eqs (url req) (str "/proxy-admin") && eqs (method req) (str "GET"));
    exact Hr.
Qed.

(** Whatever a request does to the world, it does by steps of
    [reachable]. *)
Lemma handleRequest_reachable probe req w :
  reachable w ->
  match handleRequest probe req w with
  | Returns _ w' | Throws _ w' => reachable w'
  | Outside => True
  end.
Proof.
  intros Hr. unfold handleRequest.
  destruct (request_hostname req) as [hostname|e|]; [|exact Hr|exact I].
  destruct (loadConfig w) as [c w1|e w1|] eqn:El.
  - assert (Hr1 := reach_loadConfig w w1 c Hr El).
    destruct (eqs hostname (str "localhost")
              && startsWith (url req) (str "/proxy-admin")).
    + assert (H := handleAdminRequest_reachable req w1 Hr1).
      destruct (handleAdminRequest req w1); exact H.
    + unfold route_request.
      destruct (Get (contents w1 c) hostname) as [entry|e|]; [|exact Hr1|exact I].
      destruct (ToBoolean entry).
      * destruct (Get entry (str "target")); [exact Hr1 | exact Hr1 | exact I].
      * destruct (eqs (url req) well_known); [|exact Hr1].
        apply discover_loop_reachable. exact Hr1.
  - exfalso. exact (loadConfig_never_throws _ _ _ El).
  - exact I.
Qed.

(** * The admin API never throws *)





(** * When the dispatcher throws *)




Lemma Get_normal_truthy o k v : Get o k = Normal v -> ToBoolean o = true.
Proof.
  destruct o as [| | b | s | elems | props]; cbn [Get]; try discriminate.
  reflexivity.
Qed.



Lemma loadConfig_parsed w text v :
  storage w = Some text -> JSON_parse text = Normal v ->
  loadConfig w = Returns (Parsed v) w.
Proof. intros Es Ep. unfold loadConfig. rewrite Es, Ep. reflexivity. Qed.




(** * The admin API on a table that is [null] *)

(** X3: when the table file holds [null], POST /proxy-admin/add with a
    well-formed body is answered 400 with the error of a malformed
    request: the [TypeError] of [config[hostname] = ...] lands in the
    handler's [catch].  Nothing is written. *)
Theorem admin_add_on_null_table (req : request) (w : world) text (h t n : value) :
  url req = str "/proxy-admin/add" -> method req = str "POST" ->
  storage w = Some text -> JSON_parse text = Normal VNull ->
  parse_add_body (body req) = Normal (h, t, n) ->
  ToBoolean h = true -> ToBoolean t = true ->
  handleAdminRequest req w =
    Returns (Respond 400 application_json (json_body bad_request_format)) w.
Proof.
  intros Hu Hm Es Ep Hb Hh Ht.
  unfold handleAdminRequest. rewrite Hu, Hm.
  change (eqs (str "/proxy-admin/add") (str "/proxy-admin/list")) with false.
  cbn [andb]. rewrite !eqs_refl. cbn [andb].
  unfold admin_add. rewrite Hb, Hh, Ht. cbn [negb orb].
  unfold addIssuer. rewrite (loadConfig_parsed w text VNull Es Ep).
  reflexivity.
Qed.

Lemma admin_add_on_null_table_witness :
  handleAdminRequest (post_add add_example) null_world =
    Returns (Respond 400 application_json (json_body bad_request_format)) null_world.
Proof.
  apply (admin_add_on_null_table (post_add add_example) null_world (str "null")
           (VString (str "example.org")) (VString (str "https://localhost:6001"))
           VUndefined); reflexivity.
Defined.

(** * A host the table does not know *)

Lemma json_issuer_not_configured hostname :
  json (issuer_not_configured hostname) = true.
Proof. reflexivity. Qed.

Lemma json_body_parses v :
  json v = true ->
  exists text, json_body v = Text text /\ JSON_parse text = Normal v.
Proof.
  intros Hj. destruct (json_serialize [] [] v Hj) as (text & E).
  exists text. unfold json_body, JSON_stringify. rewrite E. split; [reflexivity|].
  apply (parse_stringify [] v); [reflexivity | exact Hj | exact E].
Qed.

(** X4: a request for a host without a truthy entry, on any path other
    than the well-known one, is answered 404 with a JSON object whose
    message carries the host as looked up; no port is probed and the
    table read afterwards is the table read before. *)
Theorem unknown_host_elsewhere probe (req : request) (w w1 : world)
    (host : jsstring) (c : config) (entry : value) :
  sound w = true ->
  headers_host req = Some host ->
  gated (split_colon_0 host) req = false ->
  eqs (url req) well_known = false ->
  loadConfig w = Returns c w1 ->
  Get (contents w1 c) (split_colon_0 host) = Normal entry ->
  ToBoolean entry = false ->
  handleRequest probe req w =
    Returns {| answer := Respond 404 application_json
                           (json_body (issuer_not_configured (split_colon_0 host)));
               probed := [] |} w1 /\
  (exists text,
      json_body (issuer_not_configured (split_colon_0 host)) = Text text /\
      JSON_parse text = Normal (issuer_not_configured (split_colon_0 host))) /\
  table w1 = table w.
Proof.
  intros Hs Hh Hg Hu El Hget Hf. split; [|split].
  - unfold handleRequest, request_hostname. rewrite Hh, El.
    fold (gated (split_colon_0 host) req). rewrite Hg.
    unfold route_request. rewrite Hget, Hf, Hu. reflexivity.
  - apply json_body_parses. apply json_issuer_not_configured.
  - destruct (loadConfig_again w c w1 Hs El) as (c1 & El1 & Ec).
    unfold table. rewrite El1, El, Ec. reflexivity.
Qed.

Lemma unknown_host_elsewhere_witness :
  handleRequest (fun _ => Status 200) (get "unknown.example" "/credential")
    (boot None true)
  = Returns {| answer := Respond 404 application_json
                           (json_body (issuer_not_configured (str "unknown.example")));
               probed := [] |}
      {| storage := JSON_stringify_2 DEFAULT_ISSUERS; writable := true;
         defaults := DEFAULT_ISSUERS |}.
Proof.
  refine (proj1 (unknown_host_elsewhere (fun _ => Status 200)
                   (get "unknown.example" "/credential") (boot None true) _
                   (str "unknown.example") TheDefaults VUndefined
                   _ _ _ _ _ _ _)); reflexivity.
Defined.

(** * Listing the table *)

(** X5: GET /proxy-admin/list answers 200 with JSON text that parses
    back to exactly the table [loadConfig] returned, and the table read
    afterwards is that same table. *)
Theorem admin_list_shows_table (req : request) (w w1 : world) (c : config) :
  sound w = true ->
  url req = str "/proxy-admin/list" -> method req = str "GET" ->
  loadConfig w = Returns c w1 ->
  exists text,
    handleAdminRequest req w =
      Returns (Respond 200 application_json (Text text)) w1 /\
    JSON_parse text = Normal (contents w1 c) /\
    table w1 = Some (contents w1 c) /\ table w = Some (contents w1 c).
Proof.
  intros Hs Hu Hm El.
  destruct (json_body_parses _ (loadConfig_json w c w1 Hs El)) as (text & Eb & Ep).
  exists text. split; [|split; [exact Ep|split]].
  - unfold handleAdminRequest. rewrite Hu, Hm, !eqs_refl. cbn [andb].
    rewrite El, Eb. reflexivity.
  - destruct (loadConfig_again w c w1 Hs El) as (c1 & El1 & Ec).
    unfold table. rewrite El1, Ec. reflexivity.
  - unfold table. rewrite El. reflexivity.
Qed.

Lemma admin_list_shows_table_witness :
  exists text,
    handleAdminRequest (get "localhost" "/proxy-admin/list") (boot None true) =
      Returns (Respond 200 application_json (Text text))
        {| storage := JSON_stringify_2 DEFAULT_ISSUERS; writable := true;
           defaults := DEFAULT_ISSUERS |} /\
    JSON_parse text = Normal DEFAULT_ISSUERS.
Proof.
  destruct (admin_list_shows_table (get "localhost" "/proxy-admin/list")
              (boot None true) _ TheDefaults eq_refl eq_refl eq_refl eq_refl)
    as (text & H & Hp & _).
  exists text. split; [exact H | exact Hp].
Defined.

(** * What [addIssuer] does to a table that is an object *)

Lemma Set_settable props key v :
  settable props key ->
  Set_ (VObject props) key v = Normal (VObject (define props key v)).
Proof.
  intros Hk. cbn [Set_]. unfold define. destruct (own props key) eqn:E.
  - reflexivity.
  - destruct Hk as [Hk | Hk]; [congruence|]. rewrite Hk. reflexivity.
Qed.

(** The call in full, by whether the file can be written. *)
Lemma addIssuer_on_object h t n w c w1 props :
  sound w = true -> loadConfig w = Returns c w1 ->
  contents w1 c = VObject props -> settable props (ToString h) ->
  json t = true -> json n = true ->
  let o := VObject (define props (ToString h) (route t n)) in
  let kept := match c with Parsed _ => defaults w | TheDefaults => o end in
  addIssuer h t n w =
    if writable w
    then Returns true {| storage := JSON_stringify_2 o; writable := true;
                         defaults := kept |}
    else Returns false {| storage := storage w; writable := false;
                          defaults := kept |}.
Proof.
  intros Hs El Ec Hk Ht Hn o kept.
  destruct (loadConfig_world _ _ _ El) as (Hd & Hw & _).
  assert (Hjo : json o = true).
  { apply json_define; [|apply json_route; assumption].
    rewrite <- Ec. apply (loadConfig_json w c w1 Hs El). }
  destruct (json_serialize [32; 32] [] o Hjo) as (data & Edata).
  assert (Es1 : writable w = false -> storage w1 = storage w).
  { intros Hf.
    destruct (loadConfig_cases w) as [(tx & v & _ & _ & E)|[[_ E]|[_ E]]];
      rewrite E in El; inversion El; subst; [reflexivity|].
    rewrite try_write_defaults_refused by exact Hf. reflexivity. }
  unfold addIssuer. rewrite El. unfold assign. rewrite Ec.
  rewrite (Set_settable props (ToString h) (route t n) Hk). fold o.
  destruct c as [v|]; unfold saveConfig, writeFileSync; cbn [contents writable defaults storage];
    unfold JSON_stringify_2 in *; rewrite Edata, Hw;
    destruct (writable w) eqn:Hww; unfold kept; rewrite ?Hd, ?Es1 by reflexivity;
    try reflexivity.
  rewrite <- (Es1 eq_refl), <- Hw, <- Hd. rewrite world_eta. reflexivity.
Qed.




(** * What a request may do to the world *)




Lemma loadConfig_sound w c w1 :
  loadConfig w = Returns c w1 -> sound w1 = sound w.
Proof.
  intros El. destruct (loadConfig_world _ _ _ El) as (Hd & _).
  unfold sound. rewrite Hd. reflexivity.
Qed.










(** * The file is never left malformed *)







(** * A save that fails *)



(** * One call after another *)


Lemma addIssuer_then w props h t n :
  sound w = true -> writable w = true ->
  table w = Some (VObject props) -> settable props (ToString h) ->
  json t = true -> json n = true ->
  exists w',
    addIssuer h t n w = Returns true w' /\ sound w' = true /\ writable w' = true /\
    table w' = Some (VObject (define props (ToString h) (route t n))) /\
    loadConfig w' = Returns (Parsed (VObject (define props (ToString h) (route t n)))) w'.
Proof.
  intros Hs Hw Htab Hk Ht Hn.
  destruct (table_loadConfig _ _ Htab) as (c & w1 & El & Ec).
  assert (H := addIssuer_on_object h t n w c w1 props Hs El Ec Hk Ht Hn).
  cbv zeta in H. rewrite Hw in H.
  eexists. split; [exact H|].
  split; [apply (addIssuer_sound h t n w true _ Hs Ht Hn H)|]. split; [reflexivity|].
  split; [apply (addIssuer_registers h t n w _ props Hs Ht Hn Htab H)|].
  destruct (addIssuer_saved _ _ _ _ _ Hs Ht Hn H)
    as (c0 & w0 & o & data & El0 & Eo & _ & _ & _ & El').
  rewrite El in El0. inversion El0; subst c0 w0. rewrite Ec in Eo.
  apply Set_object in Eo. subst o. exact El'.
Qed.





(** * From registration to routing *)

Lemma inherited_proto k : inherited k = false -> eqs k (str "__proto__") = false.
Proof.
  unfold inherited, Object_prototype_names. cbn [List.map existsb].
  rewrite !orb_false_iff. tauto.
Qed.

(** A request for a host that has a route entry, outside the admin API. *)
Lemma handleRequest_on_route probe req w host props target name :
  headers_host req = Some host -> gated (split_colon_0 host) req = false ->
  loadConfig w = Returns (Parsed (VObject props)) w ->
  own props (split_colon_0 host) = Some (route target name) ->
  handleRequest probe req w = Returns (unprobed (ProxyWeb req target)) w.
Proof.
  intros Hh Hg El Ho. unfold handleRequest, request_hostname. rewrite Hh, El.
  fold (gated (split_colon_0 host) req). rewrite Hg.
  unfold route_request. cbn [contents Get]. rewrite Ho. reflexivity.
Qed.

(** X13: discovery is paid once.  On a file the process can write, a
    request for an unknown host at the well-known path is forwarded to
    the first port that answers 200; from then on every request for
    that host, on any path outside the admin API, is forwarded to the
    same target without a probe. *)
Theorem discovered_host_is_routed probe (req : request) (w : world)
    (host : jsstring) props (before after : list N) (port : N) :
  sound w = true -> writable w = true ->
  headers_host req = Some host -> url req = well_known ->
  table w = Some (VObject props) ->
  own props (split_colon_0 host) = None -> inherited (split_colon_0 host) = false ->
  ports = before ++ port :: after ->
  (forall q, In q before -> is_200 (probe q) = false) ->
  is_200 (probe port) = true ->
  let target := VString (localhost_at port) in
  exists w',
    handleRequest probe req w =
      Returns {| answer := ProxyWeb req target; probed := before ++ [port] |} w' /\
    forall probe' req' host',
      headers_host req' = Some host' ->
      split_colon_0 host' = split_colon_0 host ->
      gated (split_colon_0 host) req' = false ->
      handleRequest probe' req' w' = Returns (unprobed (ProxyWeb req' target)) w'.
Proof.
  intros Hs Hw Hh Hu Htab Ho Hi Hports Hall Hport target.
  destruct (table_loadConfig _ _ Htab) as (c & w1 & El & Ec).
  destruct (loadConfig_world _ _ _ El) as (_ & Hw1 & _).
  assert (Hs1 : sound w1 = true) by (rewrite (loadConfig_sound _ _ _ El); exact Hs).
  assert (Htab1 : table w1 = Some (VObject props)).
  { destruct (loadConfig_again w c w1 Hs El) as (c1 & El1 & Ec1).
    unfold table. rewrite El1, Ec1, Ec. reflexivity. }
  destruct (addIssuer_then w1 props (VString (split_colon_0 host)) target
              (VString (discovered_label (split_colon_0 host))) Hs1
              ltac:(congruence) Htab1 (or_intror (inherited_proto _ Hi))
              eq_refl eq_refl)
    as (w' & Ha & _ & _ & _ & El').
  exists w'. split.
  - unfold handleRequest, request_hostname. rewrite Hh, El, Hu.
    replace (startsWith well_known (str "/proxy-admin")) with false by reflexivity.
    rewrite andb_false_r. unfold route_request. rewrite Ec. cbn [Get].
    rewrite Ho, Hi. cbn [ToBoolean]. rewrite Hu, eqs_refl.
    unfold discoverIssuer. rewrite Hports.
    rewrite (discover_loop_found probe before port after _ req w1 Hall Hport []).
    fold target. rewrite Ha. reflexivity.
  - intros probe' req' host' Hh' Esame Hg'.
    eapply (handleRequest_on_route probe' req' w' host').
    + exact Hh'.
    + rewrite Esame. exact Hg'.
    + exact El'.
    + rewrite Esame. apply own_define_same.
Qed.

Lemma discovered_host_is_routed_witness :
  exists w',
    handleRequest only_5001 well_known_request (boot None true) =
      Returns {| answer := ProxyWeb well_known_request (VString (localhost_at 5001));
                 probed := [5000] ++ [5001] |} w' /\
    handleRequest (fun _ => TimedOut) (get "unknown.example:8080" "/credential") w'
    = Returns (unprobed (ProxyWeb (get "unknown.example:8080" "/credential")
                           (VString (localhost_at 5001)))) w'.
Proof.
  destruct (discovered_host_is_routed only_5001 well_known_request (boot None true)
              (str "unknown.example")
              match DEFAULT_ISSUERS with VObject p => p | _ => [] end
              [5000] [5002; 5003; 5004; 5005; 8080; 8081; 8082; 8000; 8001] 5001
              eq_refl eq_refl eq_refl eq_refl eq_refl eq_refl eq_refl eq_refl)
    as (w' & H1 & H2).
  - intros q [<-|[]]. reflexivity.
  - reflexivity.
  - exists w'. split; [exact H1|].
    apply (H2 (fun _ => TimedOut) (get "unknown.example:8080" "/credential")
              (str "unknown.example:8080")); reflexivity.
Defined.



(** X15: a table key that contains a colon is dead: no request is ever
    looked up under it, and the entry found for a request is the same
    whatever is stored under such a key. *)
Theorem key_with_colon_never_matches (req : request) (hostname key : jsstring) :
  In colon key -> request_hostname req = Normal hostname ->
  hostname <> key /\
  forall props v, own (define props key v) hostname = own props hostname.
Proof.
  intros Hc Hr.
  assert (Hne : hostname <> key).
  { unfold request_hostname in Hr. destruct (headers_host req) as [host|];
      [|discriminate]. inversion Hr; subst. intros E.
    apply (split_colon_0_no_colon host). rewrite E. exact Hc. }
  split; [exact Hne|]. intros props v. apply own_define_other. exact Hne.
Qed.

Lemma key_with_colon_never_matches_witness :
  str "example.org" <> str "example.org:8443".
Proof.
  apply (key_with_colon_never_matches (get "example.org:8443" "/")
           (str "example.org") (str "example.org:8443")).
  - vm_compute. tauto.
  - reflexivity.
Defined.

(** * The HTTP server *)

Lemma redirect_host_cases req :
  (redirect_host req = str "localhost" /\
   (headers_host req = None \/
    exists host, headers_host req = Some host /\ split_colon_0 host = [])) \/
  (exists host, headers_host req = Some host /\ split_colon_0 host <> [] /\
                redirect_host req = split_colon_0 host).
Proof.
  unfold redirect_host. destruct (headers_host req) as [host|]; [|left; auto].
  destruct (split_colon_0 host) as [|c s] eqn:E.
  - left. split; [reflexivity|]. right. exists host. auto.
  - right. exists host. rewrite E.
    split; [reflexivity|]. split; [discriminate|reflexivity].
Qed.

(** X16: the HTTP server answers every request, with or without a Host
    header, by a 301 to [https://] + host + path, the path as received:
    the host is never empty and carries no port, so the redirect always
    points at the default HTTPS port; it is [localhost] when the header
    is missing, empty or starts with a colon. *)
Theorem httpServer_redirects (req : request) :
  redirect_status (httpServer req) = 301 /\
  Location (httpServer req) = str "https://" ++ redirect_host req ++ url req /\
  redirect_host req <> [] /\ ~ In colon (redirect_host req) /\
  (redirect_host req = str "localhost" <->
   headers_host req = None \/
   exists host, headers_host req = Some host /\
                (split_colon_0 host = [] \/ split_colon_0 host = str "localhost")).
Proof.
  split; [reflexivity|]. split; [reflexivity|].
  destruct (redirect_host_cases req) as [(E & Hc)|(host & Hh & Hne & E)].
  - rewrite E. split; [intros X; vm_compute in X; discriminate X|].
    split; [vm_compute; intuition discriminate|].
    split; [intros _|reflexivity].
    destruct Hc as [Hc|(host & Hh & Hs)]; [left; exact Hc|].
    right. exists host. auto.
  - rewrite E. split; [exact Hne|]. split; [apply split_colon_0_no_colon|].
    split.
    + intros El. right. exists host. auto.
    + intros [Hn|(host' & Hh' & [He|He])]; [congruence| |];
        rewrite Hh in Hh'; inversion Hh'; subst; [contradiction | exact He].
Qed.

(** * Scenarios of the specification *)

Example scenario_startup :
  loadConfig (boot None true)
  = Returns TheDefaults
      {| storage := JSON_stringify_2 DEFAULT_ISSUERS; writable := true;
         defaults := DEFAULT_ISSUERS |}.
Proof. reflexivity. Qed.

Example scenario_discovery :
  exists w',
    handleRequest only_5001 well_known_request (boot None true)
    = Returns {| answer := ProxyWeb well_known_request
                             (VString (str "https://localhost:5001"));
                 probed := [5000; 5001] |} w' /\
    exists props,
      table w' = Some (VObject props) /\
      own props (str "unknown.example")
      = Some (route (VString (str "https://localhost:5001"))
                    (VString (discovered_label (str "unknown.example")))) /\
      keys props = [str "fido.moi.gov.tw"; str "land.moi.gov.tw"; str "zuvi.io";
                    str "unknown.example"].
Proof.
  eexists. split; [vm_compute; reflexivity|].
  eexists. split; [vm_compute; reflexivity|]. split; reflexivity.
Qed.

Example parse_orders_keys :
  JSON_parse (json_text (VObject [(str "b", VNull); (str "10", VNull);
                                  (str "2", VBool true); (str "b", VString [])]))
  = Normal (VObject [(str "2", VBool true); (str "10", VNull); (str "b", VString [])]).
Proof. reflexivity. Qed.

Example stringify_escapes :
  JSON_stringify (VString [34; 92; 10; 31; 0xD83D; 0xDE00; 0xDC00])
  = Some ([34] ++ str "\" ++ [34] ++ str "\\\n\u001f" ++ [0xD83D; 0xDE00]
            ++ str "\udc00" ++ [34]).
Proof. reflexivity. Qed.
